(** * Default-fields editor: the field-list codec and the editing model

    A shallow embedding of [V_ChangeDefaultFieldsOrder.py]: the codec
    ([FIELD_RE], [_escape], [_unescape], [FieldItem.with_suffix_inside],
    [parse_field_names_sexpr], [build_field_names_sexpr]) and the list
    operations of [OrderDialog] ([_move_up], [_move_down], [on_add],
    [on_del], [on_import]).

    A Python [str] is a sequence of Unicode code points: it is modelled as
    a list of code points ([N]).  [str.replace], [str.strip], [str.join]
    and the backtracking matcher behind [re.finditer] are modelled here as
    executable functions, so that every definition can be evaluated on a
    concrete input. *)

From Stdlib Require Import NArith ZArith Ascii String List Lia.
From stdpp Require Import base option list gmap.

Local Open Scope N_scope.

#[local] Set Warnings "-clear-no-such-hyp".

(** ** Text *)

Module Text.

(** The code points of a literal. *)
Definition codes (s : string) : list N :=
  List.map N_of_ascii (list_ascii_of_string s).

Definition QUOTE : N := 34.      (* the double quote *)
Definition BACKSLASH : N := 92.
Definition LPAREN : N := 40.
Definition RPAREN : N := 41.
Definition SPACE : N := 32.

(** [Py_UNICODE_ISSPACE]: the characters [str.strip] removes and the
    class [\s] of a [str] pattern matches. *)
Definition isspace (c : N) : bool :=
  ((9 <=? c) && (c <=? 13)) || ((28 <=? c) && (c <=? 32))
  || (c =? 133) || (c =? 160) || (c =? 5760)
  || ((8192 <=? c) && (c <=? 8202))
  || (c =? 8232) || (c =? 8233) || (c =? 8239) || (c =? 8287)
  || (c =? 12288).

(** [s.startswith(p)]: the occurrence test of [str.replace]. *)
Fixpoint starts_with (p s : list N) : bool :=
  match p, s with
  | [], _ => true
  | _ :: _, [] => false
  | a :: p', b :: s' => (a =? b) && starts_with p' s'
  end.

(** [str.replace(old, new)] for a non-empty [old]: the occurrences of
    [old] are found from left to right and do not overlap.  [skip] counts
    the characters of the occurrence just replaced that are still to be
    passed over. *)
Fixpoint replace_scan (old new : list N) (skip : nat) (s : list N) : list N :=
  match s with
  | [] => []
  | c :: t =>
      match skip with
      | S n => replace_scan old new n t
      | O =>
          if starts_with old s
          then new ++ replace_scan old new (length old - 1) t
          else c :: replace_scan old new 0 t
      end
  end.

(** [s.replace(old, new)]; with an empty [old] Python puts [new] before
    every character and at the end. *)
Definition replace (old new s : list N) : list N :=
  match old with
  | [] => new ++ flat_map (fun c => c :: new) s
  | _ :: _ => replace_scan old new 0 s
  end.

Fixpoint lstrip (s : list N) : list N :=
  match s with
  | [] => []
  | c :: t => if isspace c then lstrip t else s
  end.

Definition rstrip (s : list N) : list N := rev (lstrip (rev s)).

(** [s.strip()] *)
Definition strip (s : list N) : list N := rstrip (lstrip s).

(** [sep.join(parts)] *)
Fixpoint join (sep : list N) (parts : list (list N)) : list N :=
  match parts with
  | [] => []
  | [p] => p
  | p :: rest => p ++ sep ++ join sep rest
  end.

End Text.
Import Text.

(** ** S-expression helpers *)

(** [_unescape]: backslash-quote becomes a quote, then a doubled
    backslash becomes one backslash (two calls of [str.replace]). *)
Definition _unescape (s : list N) : list N :=
  replace [BACKSLASH; BACKSLASH] [BACKSLASH]
    (replace [BACKSLASH; QUOTE] [QUOTE] s).

(** [_escape]: every backslash is doubled, then every quote gets a
    backslash before it (two calls of [str.replace]). *)
Definition _escape (s : list N) : list N :=
  replace [QUOTE] [BACKSLASH; QUOTE]
    (replace [BACKSLASH] [BACKSLASH; BACKSLASH] s).

(** ** The matcher behind [re.finditer]

    Python's [re] is a backtracking matcher: alternatives are tried from
    left to right, [*] and [+] are greedy, and the first way of matching
    that succeeds is the match.  The matcher is written in
    continuation-passing style: [k] is what remains to be matched after the
    expression at hand, and a [None] from [k] makes the expression try its
    next way of matching. *)

Module Re.

Inductive re : Type :=
| Eps                          (* the empty pattern *)
| Chr (f : N -> bool)          (* one character of a class *)
| Seq (r1 r2 : re)
| Alt (r1 r2 : re)             (* r1|r2 *)
| Star (r : re)                (* r*, greedy *)
| Group (n : nat) (r : re).    (* capturing group number n *)

(** The text of the capturing groups that took part in the match. *)
Abbreviation caps := (gmap nat (list N)).

(** The state of a successful match: the input after the match and the
    groups. *)
Abbreviation outcome := (option (list N * gmap nat (list N))).

(** The iterations of a greedy star whose body is matched by [body]:
    one more iteration is tried first, and the rest of the pattern only
    when that fails.  An iteration that consumes nothing ends the loop;
    [fuel] bounds the number of iterations by the length of the input. *)
Fixpoint star_loop
    (body : list N -> caps -> (list N -> caps -> outcome) -> outcome)
    (fuel : nat) (s : list N) (c : caps)
    (k : list N -> caps -> outcome) : outcome :=
  match fuel with
  | O => k s c
  | S n =>
      match body s c (fun s' c' =>
                        if (length s' <? length s)%nat
                        then star_loop body n s' c' k
                        else None) with
      | Some out => Some out
      | None => k s c
      end
  end.

Fixpoint run (r : re) (s : list N) (c : caps)
    (k : list N -> caps -> outcome) {struct r} : outcome :=
  match r with
  | Eps => k s c
  | Chr f =>
      match s with
      | a :: t => if f a then k t c else None
      | [] => None
      end
  | Seq r1 r2 => run r1 s c (fun s1 c1 => run r2 s1 c1 k)
  | Alt r1 r2 =>
      match run r1 s c k with
      | Some out => Some out
      | None => run r2 s c k
      end
  | Star r1 => star_loop (run r1) (length s) s c k
  | Group n r1 =>
      run r1 s c (fun s1 c1 =>
                    k s1 (<[n := take (length s - length s1) s]> c1))
  end.

(** [pattern.match(s)] at the start of [s]. *)
Definition match_at (r : re) (s : list N) : outcome :=
  run r s ∅ (fun s' c' => Some (s', c')).

(** [pattern.finditer(s)]: the matches from left to right, each search
    starting where the previous match ended.  After an empty match the
    search moves on by one character. *)
Fixpoint finditer_from (fuel : nat) (r : re) (s : list N) : list caps :=
  match fuel with
  | O => []
  | S n =>
      match match_at r s with
      | Some (s', c) =>
          c :: (if (length s' <? length s)%nat
                then finditer_from n r s'
                else match s with
                     | [] => []
                     | _ :: t => finditer_from n r t
                     end)
      | None =>
          match s with
          | [] => []
          | _ :: t => finditer_from n r t
          end
      end
  end.

Definition finditer (r : re) (s : list N) : list caps :=
  finditer_from (S (length s)) r s.

(** Pattern syntax. *)
Definition lit (a : N) : re := Chr (N.eqb a).
Definition word (w : list N) : re := foldr (fun a r => Seq (lit a) r) Eps w.
Definition plus (r : re) : re := Seq r (Star r).
Definition any : re := Chr (fun _ => true).          (* [.] with DOTALL *)
Definition none_of (l : list N) : re :=
  Chr (fun a => negb (existsb (N.eqb a) l)).
Definition space : re := Chr isspace.                  (* [\s] *)

(** The words of a pattern, and the groups of a way of matching it. *)
Inductive matches : re -> list N -> caps -> caps -> Prop :=
| MEps c : matches Eps [] c c
| MChr f a c : f a = true -> matches (Chr f) [a] c c
| MSeq r1 r2 p1 p2 c c1 c2 :
    matches r1 p1 c c1 -> matches r2 p2 c1 c2 ->
    matches (Seq r1 r2) (p1 ++ p2) c c2
| MAltL r1 r2 p c c1 : matches r1 p c c1 -> matches (Alt r1 r2) p c c1
| MAltR r1 r2 p c c1 : matches r2 p c c1 -> matches (Alt r1 r2) p c c1
| MStarNil r c : matches (Star r) [] c c
| MStarCons r p1 p2 c c1 c2 :
    matches r p1 c c1 -> matches (Star r) p2 c1 c2 ->
    matches (Star r) (p1 ++ p2) c c2
| MGroup n r p c c1 :
    matches r p c c1 -> matches (Group n r) p c (<[n := p]> c1).

(** [p] is a word of the pattern [r]. *)
Definition in_lang (r : re) (p : list N) : Prop :=
  exists c, matches r p ∅ c.

End Re.
Import Re.

(** The body of group 1, [(?:[^Q\\]|\\.)] with Q for the double quote:
    a character that is neither quote nor backslash, or a backslash and
    any character. *)
Definition name_char : re :=
  Alt (none_of [QUOTE; BACKSLASH]) (Seq (lit BACKSLASH) any).

(** The end of the pattern: group 2 = [[^\)]] STAR and the closing [\)]. *)
Definition tail_re : re :=
  Seq (Group 2 (Star (none_of [RPAREN]))) (lit RPAREN).

(** [FIELD_RE], compiled with [re.DOTALL].  The pattern, piece by piece
    (Q stands for the double quote, STAR for the greedy star):
    the literal [\(field], [\s+], the literal [\(name], [\s+], Q,
    group 1 = [(?:[^Q\\]|\\.)] STAR, Q, [\)], [\s] STAR,
    group 2 = [[^\)]] STAR, and the closing [\)]. *)
Definition FIELD_RE : re :=
  Seq (word (codes "(field"))
 (Seq (plus space)
 (Seq (word (codes "(name"))
 (Seq (plus space)
 (Seq (lit QUOTE)
 (Seq (Group 1 (Star name_char))
 (Seq (lit QUOTE)
 (Seq (lit RPAREN)
 (Seq (Star space)
      tail_re)))))))).

(** ** Exceptions *)

Inductive exn := AttributeError | IndexError | OSError | ValueError.

Inductive result (A : Type) : Type :=
| Ok (a : A)
| Raise (e : exn).
Arguments Ok {A} a.
Arguments Raise {A} e.

Definition bind {A B} (x : result A) (f : A -> result B) : result B :=
  match x with
  | Ok a => f a
  | Raise e => Raise e
  end.

Notation "x <- e1 ;; e2" := (bind e1 (fun x => e2))
  (at level 100, e1 at next level, right associativity).

(** ** Field items *)

(** [FieldItem]: [__init__] stores [name] and [suffix], the empty text
    when [suffix] is [None]. *)
Record FieldItem := mkFieldItem { name : list N; suffix : list N }.

Definition FieldItem_init (n : list N) (suf : option (list N)) : FieldItem :=
  mkFieldItem n (default [] suf).

(** [FieldItem.with_suffix_inside] *)
Definition with_suffix_inside (it : FieldItem) : list N :=
  let suf := strip (suffix it) in
  let suf := match suf with [] => [] | _ :: _ => codes " " ++ suf end in
  codes "(field (name " ++ [QUOTE] ++ _escape (name it) ++ [QUOTE]
    ++ codes ")" ++ suf ++ codes ")".

(** [m.group(n)]: [None] when the group took no part in the match. *)
Definition group (m : caps) (n : nat) : option (list N) := m !! n.

(** The loop of [parse_field_names_sexpr]: [_unescape(m.group(1))] raises
    [AttributeError] on [None]; the suffix is [m.group(2)], or the empty
    text when that is [None] or empty. *)
Fixpoint parse_matches (ms : list caps) : result (list FieldItem) :=
  match ms with
  | [] => Ok []
  | m :: rest =>
      n <- match group m 1 with
           | Some g => Ok (_unescape g)
           | None => Raise AttributeError
           end ;;
      let suf := match group m 2 with
                 | Some ((_ :: _) as g) => g
                 | _ => []
                 end in
      items <- parse_matches rest ;;
      Ok (FieldItem_init n (Some suf) :: items)
  end.

(** [parse_field_names_sexpr(sexpr)]; [sexpr] is [None] or a text, and
    an absent [sexpr] is scanned as the empty text. *)
Definition parse_field_names_sexpr (sexpr : option (list N))
    : result (list FieldItem) :=
  parse_matches (finditer FIELD_RE (default [] sexpr)).

(** [build_field_names_sexpr(items)] *)
Definition build_field_names_sexpr (items : list FieldItem) : list N :=
  codes "(templatefields" ++ join [] (List.map with_suffix_inside items)
    ++ codes ")".

(** ** The dialog: the list of items and the selection of the list box *)

(** A value read by [json.load]. *)
#[local] Unset Elimination Schemes.
Inductive json : Type :=
| JNull
| JBool (b : bool)
| JNum (z : Z)
| JStr (s : list N)
| JArr (l : list json)
| JObj (l : list (list N * json)).
#[local] Set Elimination Schemes.

(** [isinstance(n, str)] *)
Definition as_str (j : json) : option (list N) :=
  match j with
  | JStr s => Some s
  | _ => None
  end.

(** [wx.NOT_FOUND] *)
Definition NOT_FOUND : Z := (-1)%Z.

(** [self.items] and [self.lb.GetSelection()]. *)
Record OrderDialog := mkDialog { items : list FieldItem; lb_sel : Z }.

(** The position that a Python index denotes in a list of length [len]:
    a negative index counts from the end; [IndexError] out of range. *)
Definition py_pos (len : nat) (i : Z) : result nat :=
  if ((0 <=? i) && (i <? Z.of_nat len))%Z then Ok (Z.to_nat i)
  else if ((- Z.of_nat len <=? i) && (i <? 0))%Z
       then Ok (Z.to_nat (Z.of_nat len + i))
       else Raise IndexError.

(** [l[i]] *)
Definition getitem {A} (l : list A) (i : Z) : result A :=
  p <- py_pos (length l) i ;;
  match l !! p with
  | Some a => Ok a
  | None => Raise IndexError
  end.

(** [l[i] = v] *)
Definition setitem {A} (l : list A) (i : Z) (v : A) : result (list A) :=
  p <- py_pos (length l) i ;;
  Ok (<[p := v]> l).

(** [del l[i]] *)
Definition delitem {A} (l : list A) (i : Z) : result (list A) :=
  p <- py_pos (length l) i ;;
  Ok (delete p l).

(** [refresh(sel)]: the list box shows the names again and the selection
    is set; [sel] is [None] when the argument is left out. *)
Definition refresh (sel : option Z) (its : list FieldItem) : OrderDialog :=
  match sel with
  | None =>
      match its with
      | _ :: _ => mkDialog its 0%Z
      | [] => mkDialog its NOT_FOUND
      end
  | Some i =>
      if ((0 <=? i) && (i <? Z.of_nat (length its)))%Z
      then mkDialog its i
      else mkDialog its NOT_FOUND
  end.

(** [_move_up] *)
Definition _move_up (d : OrderDialog) : result OrderDialog :=
  let i := lb_sel d in
  if ((i =? NOT_FOUND) || (i =? 0))%Z then Ok d
  else
    a <- getitem (items d) i ;;
    b <- getitem (items d) (i - 1)%Z ;;
    l1 <- setitem (items d) (i - 1)%Z a ;;
    l2 <- setitem l1 i b ;;
    Ok (refresh (Some (i - 1)%Z) l2).

(** [_move_down] *)
Definition _move_down (d : OrderDialog) : result OrderDialog :=
  let i := lb_sel d in
  if ((i =? NOT_FOUND) || (Z.of_nat (length (items d)) - 1 <=? i))%Z then Ok d
  else
    a <- getitem (items d) i ;;
    b <- getitem (items d) (i + 1)%Z ;;
    l1 <- setitem (items d) (i + 1)%Z a ;;
    l2 <- setitem l1 i b ;;
    Ok (refresh (Some (i + 1)%Z) l2).

(** The two directions of a move. *)
Inductive direction := Up | Down.

Definition move (dir : direction) (d : OrderDialog) : result OrderDialog :=
  match dir with
  | Up => _move_up d
  | Down => _move_down d
  end.

(** [on_add]: [entry] is the text of the entry dialog, [None] when the
    dialog was cancelled. *)
Definition on_add (entry : option (list N)) (d : OrderDialog) : OrderDialog :=
  match entry with
  | None => d
  | Some v =>
      let n := strip v in
      if negb (bool_decide (n = []))
         && forallb (fun it => negb (bool_decide (name it = n))) (items d)
      then
        let its := items d ++ [FieldItem_init n (Some [])] in
        refresh (Some (Z.of_nat (length its) - 1)%Z) its
      else d
  end.

(** [on_del] *)
Definition on_del (d : OrderDialog) : result OrderDialog :=
  let i := lb_sel d in
  if (i =? NOT_FOUND)%Z then Ok d
  else
    its <- delitem (items d) i ;;
    Ok (refresh (Some (Z.min i (Z.of_nat (length its) - 1))) its).

(** The dictionary [{it.name: it.suffix for it in self.items}]: a later
    item of the same name overwrites an earlier one. *)
Definition suffix_map (its : list FieldItem) : gmap (list N) (list N) :=
  foldl (fun m it => <[name it := suffix it]> m) ∅ its.

(** The first loop of [on_import], over the imported names. *)
Definition import_step (m : gmap (list N) (list N))
    (acc : list FieldItem * gset (list N)) (n : json)
    : list FieldItem * gset (list N) :=
  let '(new_items, seen) := acc in
  match as_str n with
  | Some s =>
      if bool_decide (s ∈ seen) then acc
      else (new_items ++ [FieldItem_init s (Some (default [] (m !! s)))],
            seen ∪ {[s]})
  | None => acc
  end.

(** The second loop of [on_import], over the current items. *)
Definition keep_step (seen : gset (list N))
    (new_items : list FieldItem) (it : FieldItem) : list FieldItem :=
  if bool_decide (name it ∈ seen) then new_items else new_items ++ [it].

(** The list that [on_import] builds from the imported [names]. *)
Definition reorder_by_names (names : list json) (its : list FieldItem)
    : list FieldItem :=
  let m := suffix_map its in
  let '(new_items, seen) := foldl (import_step m) ([], ∅) names in
  foldl (keep_step seen) new_items its.

(** [on_import]: [names] is [data.get("fields")] of the file read. *)
Definition on_import (names : json) (d : OrderDialog) : OrderDialog :=
  match names with
  | JArr l => refresh (Some 0%Z) (reorder_by_names l (items d))
  | _ => d
  end.

(** The selection that the list box can report: none, or a position of
    the list it shows. *)
Definition lb_ok (d : OrderDialog) : Prop :=
  lb_sel d = NOT_FOUND \/ (0 <= lb_sel d < Z.of_nat (length (items d)))%Z.

(** [OrderDialog(...)]: the items that were parsed, nothing selected. *)
Definition dialog_init (its : list FieldItem) : OrderDialog :=
  mkDialog its NOT_FOUND.

(** ** Reading and writing the configuration, export and import *)

(** What can be raised besides the exceptions above. *)
Inductive py_exn :=
| Builtin (e : exn)
| TypeError
| UnicodeEncodeError.

Inductive tried (A : Type) : Type :=
| Done (a : A)
| Fails (e : py_exn).
Arguments Done {A} a.
Arguments Fails {A} e.

(** The truth value of a loaded value: [None], [False], zero and the
    empty text, list and dict are false. *)
Definition truthy (j : json) : bool :=
  match j with
  | JNull => false
  | JBool b => b
  | JNum z => negb (z =? 0)%Z
  | JStr s => negb (bool_decide (s = []))
  | JArr l => negb (bool_decide (l = []))
  | JObj l => match l with [] => false | _ :: _ => true end
  end.

(** [d.get(k)] on the pairs of a dict ([None] when the key is missing). *)
Fixpoint dict_get (k : list N) (l : list (list N * json)) : option json :=
  match l with
  | [] => None
  | (k', v) :: t => if bool_decide (k' = k) then Some v else dict_get k t
  end.

(** [d[k] = v]: the value of an existing key is replaced where it is, a
    new key goes to the end. *)
Fixpoint dict_set (k : list N) (v : json) (l : list (list N * json))
    : list (list N * json) :=
  match l with
  | [] => [(k, v)]
  | (k', v') :: t =>
      if bool_decide (k' = k) then (k, v) :: t else (k', v') :: dict_set k v t
  end.

(** The argument that [parse_field_names_sexpr] scans for a loaded value
    [sexpr]: the text itself, the empty text for a false value, and no
    text at all ([finditer] raises [TypeError]) for a true value that is
    no text. *)
Definition scanned (sexpr : json) : option (option (list N)) :=
  match sexpr with
  | JStr s => Some (Some s)
  | JNull => Some None
  | _ => if truthy sexpr then None else Some (Some [])
  end.

(** [load_drawing_field_names]: [data] is what [json.load] returned; the
    result is [(data, drawing, items)].  [.get] on a value that is no
    dict raises [AttributeError]. *)
Definition load_drawing_field_names (data : json)
    : tried (json * json * list FieldItem) :=
  match data with
  | JObj dl =>
      let drawing := default (JObj []) (dict_get (codes "drawing") dl) in
      match drawing with
      | JObj fl =>
          let sexpr := default (JStr []) (dict_get (codes "field_names") fl) in
          match scanned sexpr with
          | Some t =>
              match parse_field_names_sexpr t with
              | Ok its => Done (data, drawing, its)
              | Raise e => Fails (Builtin e)
              end
          | None => Fails TypeError
          end
      | _ => Fails (Builtin AttributeError)
      end
  | _ => Fails (Builtin AttributeError)
  end.

(** A text that the utf-8 encoding of the file can hold: none of its
    code points is a surrogate (D800 to DFFF). *)
Definition encodable (s : list N) : bool :=
  forallb (fun c => negb ((55296 <=? c) && (c <=? 57343))) s.

(** A value all of whose texts, keys included, can be encoded. *)
Fixpoint json_encodable (j : json) : bool :=
  match j with
  | JStr s => encodable s
  | JArr l => forallb json_encodable l
  | JObj l =>
      forallb (fun kv => encodable (fst kv) && json_encodable (snd kv)) l
  | _ => true
  end.

(** The file is opened for writing and [json.dump] writes [v] into it
    ([ensure_ascii=False], encoding utf-8).  [writable] tells whether the
    operating system lets the file be opened and written; [open] raises
    [OSError] otherwise.  A text with a surrogate makes the write raise
    [UnicodeEncodeError], and the file is left cut where the write
    stopped.  [Done v]: the write is complete and the file holds [v],
    which is what [json.load] returns from it. *)
Definition dump_file (writable : bool) (v : json) : tried json :=
  if negb writable then Fails (Builtin OSError)
  else if json_encodable v then Done v
  else Fails UnicodeEncodeError.

(** [save_drawing_field_names]: the two item assignments, which raise
    [TypeError] on a value that is no dict, and the write of the
    configuration.  (The copy to the backup file comes first; its failure
    is ignored by the code.) *)
Definition save_drawing_field_names (writable : bool) (data drawing : json)
    (its : list FieldItem) : tried json :=
  match drawing with
  | JObj fl =>
      let drawing' :=
        JObj (dict_set (codes "field_names")
                (JStr (build_field_names_sexpr its)) fl) in
      match data with
      | JObj dl => dump_file writable (JObj (dict_set (codes "drawing") drawing' dl))
      | _ => Fails TypeError
      end
  | _ => Fails TypeError
  end.

(** The value that [on_export] writes. *)
Definition export_value (d : OrderDialog) : json :=
  JObj [(codes "fields", JArr (List.map (fun it => JStr (name it)) (items d)))].

(** [on_export]: [file] is [None] when the file dialog was cancelled
    (nothing is written), and tells otherwise whether the chosen file can
    be written; the result is what the file holds. *)
Definition on_export (file : option bool) (d : OrderDialog)
    : tried (option json) :=
  match file with
  | None => Done None
  | Some writable =>
      match dump_file writable (export_value d) with
      | Done v => Done (Some v)
      | Fails e => Fails e
      end
  end.

(** The part of [on_import] after the file was read: [data] is what
    [json.load] returned, and [data.get] of the key fields is the value
    that is imported. *)
Definition on_import_file (data : json) (d : OrderDialog)
    : result OrderDialog :=
  match data with
  | JObj l => Ok (on_import (default JNull (dict_get (codes "fields") l)) d)
  | _ => Raise AttributeError
  end.

(** What the file dialog of [on_import] and the reading of the chosen
    file give. *)
Inductive import_file :=
| ImportCancelled               (* the file dialog was not accepted *)
| ImportUnreadable              (* [open] raises [OSError] *)
| ImportNotJson                 (* [json.load] raises a [ValueError] *)
| ImportLoaded (data : json).   (* [json.load] returns [data] *)

(** [on_import], from the file dialog on; no exception is caught. *)
Definition on_import_dialog (f : import_file) (d : OrderDialog)
    : result OrderDialog :=
  match f with
  | ImportCancelled => Ok d
  | ImportUnreadable => Raise OSError
  | ImportNotJson => Raise ValueError
  | ImportLoaded data => on_import_file data d
  end.

(** What the user can do in the dialog. *)
Inductive event :=
| Click (i : nat)                 (* select a line of the list box *)
| EvUp | EvDown | EvDel
| EvAdd (entry : option (list N))
| EvImport (f : import_file).

Definition handle (e : event) (d : OrderDialog) : result OrderDialog :=
  match e with
  | Click i =>
      if (i <? length (items d))%nat
      then Ok (mkDialog (items d) (Z.of_nat i))
      else Ok d
  | EvUp => _move_up d
  | EvDown => _move_down d
  | EvDel => on_del d
  | EvAdd entry => Ok (on_add entry d)
  | EvImport f => on_import_dialog f d
  end.

(** ** The path of the configuration file *)

Section Paths.

(** The operating system: [os.environ.get], [sys.platform],
    [os.path.isfile], [os.path.join], [os.path.abspath] and
    [os.path.expanduser]. *)
Variable environ : list N -> option (list N).
Variable platform : list N.
Variable isfile : list N -> bool.
Variable path_join : list (list N) -> list N.
Variable abspath : list N -> list N.
Variable expanduser : list N -> list N.

Definition existing (p : list N) : option (list N) :=
  if isfile p then Some p else None.

(** [eeschema_json_path] *)
Definition eeschema_json_path : option (list N) :=
  let from_env :=
    match environ (codes "KICAD_CONFIG_HOME") with
    | Some ((_ :: _) as kch) =>
        existing (path_join [abspath (expanduser kch); codes "eeschema.json"])
    | _ => None
    end in
  match from_env with
  | Some p => Some p
  | None =>
      if starts_with (codes "win") platform then
        match default [] (environ (codes "APPDATA")) with
        | [] => None
        | (_ :: _) as appdata =>
            existing (path_join [appdata; codes "kicad"; codes "9.0";
                                 codes "eeschema.json"])
        end
      else if starts_with (codes "darwin") platform then
        existing (expanduser
                    (codes "~/Library/Preferences/kicad/9.0/eeschema.json"))
      else
        existing (expanduser (codes "~/.config/kicad/9.0/eeschema.json"))
  end.

End Paths.

(** ** Vocabulary of the statements *)

(** What [_escape] does to one character. *)
Definition escape_char (c : N) : list N :=
  if c =? BACKSLASH then [BACKSLASH; BACKSLASH]
  else if c =? QUOTE then [BACKSLASH; QUOTE]
  else [c].

(** A run that succeeds has split its input into a word of the pattern
    and a rest on which the continuation succeeded. *)
Definition sound_body
    (body : list N -> caps -> (list N -> caps -> outcome) -> outcome)
    (r : re) : Prop :=
  forall s c k out, body s c k = Some out ->
    exists p s' c', s = p ++ s' /\ matches r p c c' /\ k s' c' = Some out.

(** The continuation succeeds at [s], whatever the groups. *)
Definition succeeds_at (k : list N -> caps -> outcome) (s : list N) : Prop :=
  forall c, k s c <> None.

(** A pattern without groups. *)
Fixpoint groupless (r : re) : bool :=
  match r with
  | Eps | Chr _ => true
  | Seq r1 r2 | Alt r1 r2 => groupless r1 && groupless r2
  | Star r1 => groupless r1
  | Group _ _ => false
  end.

(** The rest of the input does not go on with a character of the class. *)
Definition stops (f : N -> bool) (s : list N) : Prop :=
  match s with
  | [] => True
  | a :: _ => f a = false
  end.

(** The flags of a record as [with_suffix_inside] writes them: nothing,
    or one space and the stripped suffix. *)
Definition flags_text (st : list N) : list N :=
  match st with
  | [] => []
  | _ :: _ => SPACE :: st
  end.

(** The groups that [finditer] reports for a serialized record. *)
Definition record_groups (it : FieldItem) : caps :=
  <[2%nat := strip (suffix it)]> (<[1%nat := _escape (name it)]> ∅).

(** A record as it is read back: the name, and the suffix stripped. *)
Definition normalize (it : FieldItem) : FieldItem :=
  mkFieldItem (name it) (strip (suffix it)).

(** What is compared when a list is read back: the name and the stripped
    suffix of every record. *)
Definition key (it : FieldItem) : list N * list N :=
  (name it, strip (suffix it)).

(** The text holds a record: a piece of it is a word of [FIELD_RE]. *)
Definition has_record (t : list N) : Prop :=
  exists pre p post, t = pre ++ p ++ post /\ in_lang FIELD_RE p.

(** [l'] is [l] with the items at the positions [i] and [j] exchanged. *)
Definition swapped {A} (i j : nat) (l l' : list A) : Prop :=
  length l' = length l
  /\ l' !! i = l !! j
  /\ l' !! j = l !! i
  /\ forall k, k <> i -> k <> j -> l' !! k = l !! k.

(** The position next to [i] in a direction. *)
Definition neighbour (dir : direction) (i : Z) : Z :=
  match dir with
  | Up => (i - 1)%Z
  | Down => (i + 1)%Z
  end.

Definition in_range (len : nat) (i : Z) : Prop :=
  (0 <= i < Z.of_nat len)%Z.

(** The names of a list in the order of their first occurrence. *)
Fixpoint first_occurrences (l : list (list N)) : list (list N) :=
  match l with
  | [] => []
  | x :: t => x :: filter (fun y => y <> x) (first_occurrences t)
  end.

(** The texts among the imported values. *)
Definition texts (names : list json) : list (list N) := omap as_str names.

(** The record that the first loop makes for a name. *)
Definition imported (m : gmap (list N) (list N)) (n : list N) : FieldItem :=
  mkFieldItem n (default [] (m !! n)).

(** A session of the dialog: the events of the user, one after the
    other. *)
Fixpoint run_events (es : list event) (d : OrderDialog) : result OrderDialog :=
  match es with
  | [] => Ok d
  | e :: rest => d' <- handle e d ;; run_events rest d'
  end.

(** No suffix of the list holds a closing parenthesis. *)
Definition clean (its : list FieldItem) : Prop :=
  Forall (fun it => ~ In RPAREN (suffix it)) its.

(** The names of the list are all different. *)
Definition unique_names (its : list FieldItem) : Prop :=
  NoDup (List.map name its).


(** The events that return: every event but an import whose file cannot
    be opened, cannot be decoded or holds no dict. *)
Definition returns (e : event) : Prop :=
  match e with
  | EvImport ImportUnreadable | EvImport ImportNotJson => False
  | EvImport (ImportLoaded data) => exists l, data = JObj l
  | _ => True
  end.

(** [t] is [s] without its surrounding whitespace: [s] is [t] between two
    runs of whitespace, and [t] neither starts nor ends with whitespace. *)
Definition trimmed_of (s t : list N) : Prop :=
  exists l r,
    s = l ++ t ++ r
    /\ Forall (fun a => isspace a = true) l
    /\ Forall (fun a => isspace a = true) r
    /\ stops isspace t /\ stops isspace (rev t).

(** The example text of the specification. *)
Definition example_text : list N :=
  codes "(templatefields (field (name " ++ [QUOTE] ++ codes "MFR" ++ [QUOTE]
  ++ codes ") visible) (field (name " ++ [QUOTE] ++ codes "URL" ++ [QUOTE]
  ++ codes ") url))".


(** ** [str.replace] with a one-character pattern, and the two escapes *)

#[local] Arguments N.eqb : simpl never.

Section Replace.

Lemma replace_single a new s :
  replace [a] new s = flat_map (fun c => if c =? a then new else [c]) s.
Proof.
  unfold replace.
  induction s as [|c t IH]; simpl; [reflexivity|].
  rewrite andb_true_r, (N.eqb_sym a c).
  destruct (c =? a); simpl; rewrite IH; reflexivity.
Qed.

Lemma escape_flat_map s : _escape s = flat_map escape_char s.
Proof.
  unfold _escape. rewrite !replace_single.
  induction s as [|c t IH]; simpl; [reflexivity|].
  rewrite flat_map_app, IH. f_equal.
  unfold escape_char.
  destruct (N.eqb_spec c BACKSLASH) as [->|Hb]; [reflexivity|].
  simpl. rewrite app_nil_r. reflexivity.
Qed.

Lemma escape_cons c s : _escape (c :: s) = escape_char c ++ _escape s.
Proof. rewrite !escape_flat_map. reflexivity. Qed.

Lemma escape_app s t : _escape (s ++ t) = _escape s ++ _escape t.
Proof. rewrite !escape_flat_map. apply flat_map_app. Qed.

(** Doubling the backslashes is undone by halving them. *)
Lemma halve_double s :
  replace [BACKSLASH; BACKSLASH] [BACKSLASH]
    (replace [BACKSLASH] [BACKSLASH; BACKSLASH] s) = s.
Proof.
  rewrite replace_single. unfold replace.
  induction s as [|c t IH]; simpl; [reflexivity|].
  destruct (N.eqb_spec c BACKSLASH) as [->|Hb]; simpl.
  - rewrite IH. reflexivity.
  - destruct (N.eqb_spec BACKSLASH c) as [E|_]; [congruence|].
    simpl. rewrite IH. reflexivity.
Qed.

(** A text whose quotes were escaped does not start with a quote. *)
Lemma quoted_head s t :
  replace [QUOTE] [BACKSLASH; QUOTE] s = QUOTE :: t -> False.
Proof.
  rewrite replace_single. destruct s as [|c s]; simpl; [discriminate|].
  destruct (N.eqb_spec c QUOTE) as [->|Hq]; simpl; [discriminate|].
  intros [= E]. congruence.
Qed.

(** Escaping the quotes is undone by the first replacement of
    [_unescape], whatever the backslashes of the text. *)
Lemma unquote_quote s :
  replace [BACKSLASH; QUOTE] [QUOTE]
    (replace [QUOTE] [BACKSLASH; QUOTE] s) = s.
Proof.
  unfold replace at 1.
  induction s as [|c t IH]; [reflexivity|].
  rewrite replace_single in *. simpl.
  destruct (N.eqb_spec c QUOTE) as [->|Hq]; simpl.
  - rewrite IH. reflexivity.
  - destruct (N.eqb_spec BACKSLASH c) as [<-|Hb]; simpl.
    + destruct (flat_map _ t) as [|c' t'] eqn:E; simpl; [simpl in IH; congruence|].
      destruct (N.eqb_spec QUOTE c') as [<-|Hq'].
      * exfalso. apply (quoted_head t t'). rewrite replace_single. exact E.
      * simpl. simpl in IH. rewrite IH. reflexivity.
    + rewrite IH. reflexivity.
Qed.

Lemma unescape_escape_id nm : _unescape (_escape nm) = nm.
Proof.
  unfold _unescape, _escape.
  rewrite unquote_quote. apply halve_double.
Qed.

End Replace.

(** C3. For every name, whatever its quotes and backslashes,
    [_unescape (_escape name) = name]: [_escape] doubles the backslashes and
    then puts a backslash before every quote, and the two replacements of
    [_unescape] undo these two steps in the opposite order. *)
Theorem unescape_escape (nm : list N) : _unescape (_escape nm) = nm.
Proof. apply unescape_escape_id. Qed.

(** ** [str.strip] *)

Section Strip.

Lemma lstrip_head s c t : lstrip s = c :: t -> isspace c = false.
Proof.
  induction s as [|a s IH]; simpl; [discriminate|].
  destruct (isspace a) eqn:E; [exact IH|].
  intros [= -> _]. exact E.
Qed.

Lemma lstrip_nospace c t : isspace c = false -> lstrip (c :: t) = c :: t.
Proof. intros E. simpl. rewrite E. reflexivity. Qed.

Lemma lstrip_suffix s : exists p, s = p ++ lstrip s.
Proof.
  induction s as [|a s [p IH]]; simpl; [exists []; reflexivity|].
  destruct (isspace a).
  - exists (a :: p). simpl. congruence.
  - exists []. reflexivity.
Qed.

Lemma lstrip_idem s : lstrip (lstrip s) = lstrip s.
Proof.
  destruct (lstrip s) as [|c t] eqn:E; [reflexivity|].
  apply lstrip_nospace. exact (lstrip_head _ _ _ E).
Qed.

Lemma rstrip_prefix s : exists q, s = rstrip s ++ q.
Proof.
  unfold rstrip. destruct (lstrip_suffix (rev s)) as [p Hp].
  exists (rev p). rewrite <- rev_app_distr, <- Hp, rev_involutive. reflexivity.
Qed.

Lemma rstrip_idem s : rstrip (rstrip s) = rstrip s.
Proof. unfold rstrip. rewrite rev_involutive, lstrip_idem. reflexivity. Qed.

(** Stripping the right end leaves a first character that is no space. *)
Lemma rstrip_cons c t :
  isspace c = false -> exists t', rstrip (c :: t) = c :: t'.
Proof.
  intros E. unfold rstrip. simpl.
  assert (H : forall u, exists u', lstrip (u ++ [c]) = u' ++ [c]).
  { induction u as [|a u [u' IH]]; simpl.
    - rewrite E. exists []. reflexivity.
    - destruct (isspace a); [exists u'; exact IH|].
      exists (a :: u). reflexivity. }
  destruct (H (rev t)) as [u' ->].
  exists (rev u'). rewrite rev_app_distr. reflexivity.
Qed.

Lemma strip_head s c t : strip s = c :: t -> isspace c = false.
Proof.
  unfold strip. destruct (lstrip s) as [|a u] eqn:E.
  - discriminate.
  - pose proof (lstrip_head _ _ _ E) as Ha.
    destruct (rstrip_cons a u Ha) as [t' ->].
    intros [= <- _]. exact Ha.
Qed.

Lemma strip_idem s : strip (strip s) = strip s.
Proof.
  unfold strip at 1.
  destruct (strip s) as [|c t] eqn:E; [reflexivity|].
  rewrite (lstrip_nospace c t (strip_head _ _ _ E)), <- E.
  unfold strip. apply rstrip_idem.
Qed.

(** A stripped text is a piece of the text. *)
Lemma strip_infix s : exists p q, s = p ++ strip s ++ q.
Proof.
  unfold strip. destruct (lstrip_suffix s) as [p Hp].
  destruct (rstrip_prefix (lstrip s)) as [q Hq].
  exists p, q. rewrite <- Hq. exact Hp.
Qed.

Lemma strip_In s a : In a (strip s) -> In a s.
Proof.
  destruct (strip_infix s) as (p & q & E). intros H.
  rewrite E, !in_app_iff. auto.
Qed.

Lemma lstrip_split s :
  exists p, s = p ++ lstrip s /\ Forall (fun a => isspace a = true) p.
Proof.
  induction s as [|a s (p & IH & Hp)]; simpl; [exists []; split; [reflexivity | constructor]|].
  destruct (isspace a) eqn:E.
  - exists (a :: p). split; [simpl; congruence | constructor; assumption].
  - exists []. split; [reflexivity | constructor].
Qed.

Lemma rstrip_split s :
  exists q, s = rstrip s ++ q /\ Forall (fun a => isspace a = true) q.
Proof.
  unfold rstrip. destruct (lstrip_split (rev s)) as (p & Hp & Hs).
  exists (rev p). split.
  - rewrite <- rev_app_distr, <- Hp, rev_involutive. reflexivity.
  - apply Forall_forall. intros a Ha. rewrite Forall_forall in Hs.
    apply Hs. apply list_elem_of_In. apply list_elem_of_In in Ha.
    apply in_rev. exact Ha.
Qed.

Lemma lstrip_app_space l x :
  Forall (fun a => isspace a = true) l -> lstrip (l ++ x) = lstrip x.
Proof.
  induction 1 as [|a l Ha _ IH]; simpl; [reflexivity|].
  rewrite Ha. exact IH.
Qed.

Lemma lstrip_stops s : s <> [] -> stops isspace s -> lstrip s = s.
Proof.
  destruct s as [|c t]; [congruence|]. intros _ Hc. simpl in *.
  rewrite Hc. reflexivity.
Qed.

(** The stripped text is the text without its surrounding whitespace. *)
Lemma strip_trimmed s : trimmed_of s (strip s).
Proof.
  unfold trimmed_of, strip.
  destruct (lstrip_split s) as (l & Hl & Hls).
  destruct (rstrip_split (lstrip s)) as (r & Hr & Hrs).
  exists l, r. split; [rewrite <- Hr; exact Hl|].
  split; [exact Hls|]. split; [exact Hrs|]. split.
  - fold (strip s). destruct (strip s) as [|c t] eqn:E; [exact I|].
    exact (strip_head _ _ _ E).
  - unfold rstrip. rewrite rev_involutive.
    destruct (lstrip (rev (lstrip s))) as [|c t] eqn:E; [exact I|].
    exact (lstrip_head _ _ _ E).
Qed.

(** It is the only one. *)
Lemma trimmed_strip s t : trimmed_of s t -> t = strip s.
Proof.
  intros (l & r & -> & Hl & Hr & Ht & Hrt). unfold strip.
  rewrite (lstrip_app_space l _ Hl).
  assert (Hrr : Forall (fun a => isspace a = true) (rev r)).
  { apply Forall_forall. intros a Ha. rewrite Forall_forall in Hr.
    apply Hr. apply list_elem_of_In. apply list_elem_of_In in Ha.
    apply in_rev. exact Ha. }
  destruct t as [|c t].
  - simpl. rewrite <- (app_nil_r r) at 1.
    rewrite (lstrip_app_space r [] Hr). reflexivity.
  - rewrite (lstrip_stops ((c :: t) ++ r)) by (try discriminate; exact Ht).
    unfold rstrip. rewrite rev_app_distr, (lstrip_app_space _ _ Hrr).
    rewrite lstrip_stops; [symmetry; apply rev_involutive | | exact Hrt].
    intros E. apply (f_equal (@length N)) in E.
    rewrite length_rev in E. discriminate.
Qed.

End Strip.

(** ** The matcher: what a successful run has matched *)

Section Soundness.

Lemma take_consumed (p s : list N) :
  take (length (p ++ s) - length s) (p ++ s) = p.
Proof.
  rewrite length_app.
  replace (length p + length s - length s)%nat with (length p) by lia.
  apply take_app_length.
Qed.

Lemma star_loop_sound body r :
  sound_body body r ->
  forall fuel, sound_body (star_loop body fuel) (Star r).
Proof.
  intros Hb fuel.
  induction fuel as [|n IH]; intros s c k out H; simpl in H.
  - exists [], s, c. repeat split; [constructor | exact H].
  - destruct (body s c _) as [o|] eqn:E.
    + injection H as ->.
      apply Hb in E. destruct E as (p1 & s1 & c1 & -> & M1 & K1).
      destruct (length s1 <? length (p1 ++ s1))%nat; [|discriminate].
      apply IH in K1. destruct K1 as (p2 & s2 & c2 & -> & M2 & K2).
      exists (p1 ++ p2), s2, c2. rewrite <- app_assoc.
      repeat split; [econstructor; eassumption | exact K2].
    + exists [], s, c. repeat split; [constructor | exact H].
Qed.

Lemma run_sound r : sound_body (run r) r.
Proof.
  induction r as [|f|r1 IH1 r2 IH2|r1 IH1 r2 IH2|r1 IH1|n r1 IH1];
    intros s c k out H; simpl in H.
  - exists [], s, c. repeat split; [constructor | exact H].
  - destruct s as [|a t]; [discriminate|].
    destruct (f a) eqn:E; [|discriminate].
    exists [a], t, c. repeat split; [constructor; exact E | exact H].
  - apply IH1 in H. destruct H as (p1 & s1 & c1 & -> & M1 & K1).
    apply IH2 in K1. destruct K1 as (p2 & s2 & c2 & -> & M2 & K2).
    exists (p1 ++ p2), s2, c2. rewrite <- app_assoc.
    repeat split; [econstructor; eassumption | exact K2].
  - destruct (run r1 s c k) as [o|] eqn:E.
    + injection H as ->. apply IH1 in E.
      destruct E as (p & s' & c' & -> & M & K).
      exists p, s', c'. repeat split; [apply MAltL; exact M | exact K].
    + apply IH2 in H. destruct H as (p & s' & c' & -> & M & K).
      exists p, s', c'. repeat split; [apply MAltR; exact M | exact K].
  - exact (star_loop_sound _ _ IH1 _ _ _ _ _ H).
  - apply IH1 in H. destruct H as (p & s' & c' & -> & M & K).
    rewrite take_consumed in K.
    exists p, s', (<[n := p]> c'). repeat split; [constructor; exact M | exact K].
Qed.

Lemma match_at_sound r s s' c :
  match_at r s = Some (s', c) ->
  exists p, s = p ++ s' /\ matches r p ∅ c.
Proof.
  unfold match_at. intros H. apply run_sound in H.
  destruct H as (p & s1 & c1 & -> & M & [= -> ->]).
  exists p. split; [reflexivity | exact M].
Qed.

(** Every match that [finditer] reports is a success of the matcher at
    some place of the text. *)
Lemma finditer_from_Forall (P : caps -> Prop) r :
  (forall s s' c, match_at r s = Some (s', c) -> P c) ->
  forall fuel s, Forall P (finditer_from fuel r s).
Proof.
  intros HP fuel.
  induction fuel as [|n IH]; intros s; simpl; [constructor|].
  destruct (match_at r s) as [[s' c]|] eqn:E.
  - constructor; [exact (HP _ _ _ E)|].
    destruct (length s' <? length s)%nat; [apply IH|].
    destruct s; [constructor | apply IH].
  - destruct s; [constructor | apply IH].
Qed.

(** Without a success of the matcher at any place, [finditer] reports
    nothing. *)
Lemma finditer_from_nil r fuel :
  forall s, (forall pre t, s = pre ++ t -> match_at r t = None) ->
  finditer_from fuel r s = [].
Proof.
  induction fuel as [|n IH]; intros s H; simpl; [reflexivity|].
  rewrite (H [] s eq_refl).
  destruct s as [|a t]; [reflexivity|].
  apply IH. intros pre u ->. apply (H (a :: pre) u). reflexivity.
Qed.

End Soundness.

(** ** The matcher finds every word *)

Section Completeness.

Lemma run_complete_aux r p c0 c1 :
  matches r p c0 c1 ->
  (forall c s k, succeeds_at k s -> run r (p ++ s) c k <> None)
  /\ (forall r1, r = Star r1 ->
      forall fuel c s k,
        (length (p ++ s) <= fuel)%nat -> succeeds_at k s ->
        star_loop (run r1) fuel (p ++ s) c k <> None).
Proof.
  induction 1 as [c0|f a c0 Ha|r1 r2 p1 p2 c0 c1 c2 _ [IH1 _] _ [IH2 _]
                 |r1 r2 p c0 c1 _ [IH _]|r1 r2 p c0 c1 _ [IH _]
                 |r c0|r p1 p2 c0 c1 c2 _ [IH1 _] _ [_ IH2]
                 |n r p c0 c1 _ [IH _]].
  - split; [|discriminate]. intros c s k Hk. apply Hk.
  - split; [|discriminate]. intros c s k Hk. simpl. rewrite Ha. apply Hk.
  - split; [|discriminate]. intros c s k Hk. simpl. rewrite <- app_assoc.
    apply IH1. intros c'. apply IH2. exact Hk.
  - split; [|discriminate]. intros c s k Hk. simpl.
    specialize (IH c s k Hk). destruct (run r1 (p ++ s) c k); congruence.
  - split; [|discriminate]. intros c s k Hk. simpl.
    specialize (IH c s k Hk). destruct (run r1 (p ++ s) c k); congruence.
  - assert (Hstar : forall fuel c s k, succeeds_at k s ->
                      star_loop (run r) fuel s c k <> None).
    { intros fuel c s k Hk. destruct fuel as [|n]; simpl; [apply Hk|].
      destruct (run r s c _); [discriminate | apply Hk]. }
    split.
    + intros c s k Hk. simpl. apply Hstar. exact Hk.
    + intros r1 [= <-] fuel c s k _ Hk. apply Hstar. exact Hk.
  - assert (Hstar : forall fuel c s k,
              (length ((p1 ++ p2) ++ s) <= fuel)%nat -> succeeds_at k s ->
              star_loop (run r) fuel ((p1 ++ p2) ++ s) c k <> None).
    { intros fuel c s k Hf Hk.
      destruct p1 as [|a p1].
      - simpl in *. apply (IH2 r eq_refl); assumption.
      - destruct fuel as [|n]; [simpl in Hf; lia|].
        change (star_loop (run r) (S n) (((a :: p1) ++ p2) ++ s) c k)
          with (match run r (((a :: p1) ++ p2) ++ s) c
                        (fun s1 c1 =>
                           if (length s1 <? length (((a :: p1) ++ p2) ++ s))%nat
                           then star_loop (run r) n s1 c1 k else None) with
                | Some o => Some o
                | None => k (((a :: p1) ++ p2) ++ s) c
                end).
        match goal with
        | |- match ?X with _ => _ end <> None =>
            assert (HX : X <> None); [|destruct X; congruence]
        end.
        rewrite <- app_assoc. apply IH1. intros c'.
        replace (length (p2 ++ s) <? length ((a :: p1) ++ p2 ++ s))%nat
          with true
          by (symmetry; apply Nat.ltb_lt; rewrite !length_app; simpl; lia).
        apply (IH2 r eq_refl); [|exact Hk].
        rewrite !length_app in *. simpl in Hf. lia. }
    split.
    + intros c s k Hk. simpl. apply Hstar; [lia | exact Hk].
    + intros r1 [= <-] fuel c s k Hf Hk. apply Hstar; assumption.
  - split; [|discriminate]. intros c s k Hk. simpl.
    apply IH. intros c'. apply Hk.
Qed.

(** At the start of a word of the pattern the matcher succeeds. *)
Lemma match_at_complete r p s :
  in_lang r p -> match_at r (p ++ s) <> None.
Proof.
  intros [c M]. unfold match_at.
  apply (run_complete_aux _ _ _ _ M). intros c'. discriminate.
Qed.

(** A text with a word of the pattern in it has a match. *)
Lemma finditer_from_found r pre :
  forall fuel p post,
    in_lang r p -> (length (pre ++ p ++ post) < fuel)%nat ->
    finditer_from fuel r (pre ++ p ++ post) <> [].
Proof.
  induction pre as [|a pre IH]; intros fuel p post Hp Hf;
    (destruct fuel as [|n]; [lia|]); simpl.
  - pose proof (match_at_complete r p post Hp) as Hm.
    destruct (match_at r (p ++ post)) as [[s' c]|]; [discriminate|congruence].
  - destruct (match_at r (a :: pre ++ p ++ post)) as [[s' c]|]; [discriminate|].
    apply IH; [exact Hp | simpl in Hf; lia].
Qed.

End Completeness.

(** ** Inversion of the words of [FIELD_RE] *)

Section Inversion.

Lemma matches_seq_inv r1 r2 p c c2 :
  matches (Seq r1 r2) p c c2 ->
  exists p1 p2 c1, p = p1 ++ p2 /\ matches r1 p1 c c1 /\ matches r2 p2 c1 c2.
Proof. inversion 1; subst; eauto 10. Qed.

Lemma matches_chr_inv f p c c' :
  matches (Chr f) p c c' -> exists a, p = [a] /\ f a = true /\ c' = c.
Proof. inversion 1; subst; eauto. Qed.

Lemma matches_group_inv n r p c c' :
  matches (Group n r) p c c' ->
  exists c1, matches r p c c1 /\ c' = <[n := p]> c1.
Proof. inversion 1; subst; eauto. Qed.

Lemma matches_groupless r p c c' :
  matches r p c c' -> groupless r = true -> c' = c.
Proof.
  induction 1; simpl; intros G; try reflexivity;
    try (apply andb_prop in G; destruct G as [G1 G2]).
  - rewrite IHmatches2, IHmatches1; auto.
  - auto.
  - auto.
  - rewrite IHmatches2, IHmatches1; auto.
  - discriminate.
Qed.

(** The words of a starred class are the texts made of the class. *)
Lemma matches_star_chr f p c c' :
  matches (Star (Chr f)) p c c' -> Forall (fun a => f a = true) p.
Proof.
  remember (Star (Chr f)) as r eqn:Er. induction 1; try discriminate.
  - constructor.
  - injection Er as ->. apply Forall_app. split; [|auto].
    apply matches_chr_inv in H. destruct H as (a & -> & Ha & _).
    constructor; [exact Ha | constructor].
Qed.

Lemma groupless_word w : groupless (word w) = true.
Proof. induction w; simpl; auto. Qed.

(** The groups of a word of [FIELD_RE]: both took part in the match, and
    group 2 is a text without closing parenthesis.  The word itself
    starts with an opening parenthesis. *)
Lemma field_re_groups p c :
  matches FIELD_RE p ∅ c ->
  exists g1 g2 q,
    c = <[2%nat := g2]> (<[1%nat := g1]> ∅)
    /\ Forall (fun a => a <> RPAREN) g2
    /\ p = LPAREN :: q.
Proof.
  unfold FIELD_RE. intros H.
  apply matches_seq_inv in H. destruct H as (w1 & p1 & c1 & -> & M1 & H).
  pose proof (matches_groupless _ _ _ _ M1 (groupless_word _)) as ->.
  assert (Hw : exists q, w1 = LPAREN :: q).
  { change (codes "(field") with (LPAREN :: codes "field") in M1.
    simpl in M1. apply matches_seq_inv in M1.
    destruct M1 as (x & y & ? & -> & Mx & _).
    apply matches_chr_inv in Mx. destruct Mx as (a & -> & Ha & _).
    apply N.eqb_eq in Ha. subst a. eexists. reflexivity. }
  destruct Hw as (q & ->).
  apply matches_seq_inv in H. destruct H as (w2 & p2 & c2 & -> & M2 & H).
  pose proof (matches_groupless _ _ _ _ M2 eq_refl) as ->.
  apply matches_seq_inv in H. destruct H as (w3 & p3 & c3 & -> & M3 & H).
  pose proof (matches_groupless _ _ _ _ M3 (groupless_word _)) as ->.
  apply matches_seq_inv in H. destruct H as (w4 & p4 & c4 & -> & M4 & H).
  pose proof (matches_groupless _ _ _ _ M4 eq_refl) as ->.
  apply matches_seq_inv in H. destruct H as (w5 & p5 & c5 & -> & M5 & H).
  pose proof (matches_groupless _ _ _ _ M5 eq_refl) as ->.
  apply matches_seq_inv in H. destruct H as (g1 & p6 & c6 & -> & M6 & H).
  apply matches_group_inv in M6. destruct M6 as (c6' & M6 & ->).
  pose proof (matches_groupless _ _ _ _ M6 eq_refl) as ->.
  apply matches_seq_inv in H. destruct H as (w7 & p7 & c7 & -> & M7 & H).
  pose proof (matches_groupless _ _ _ _ M7 eq_refl) as ->.
  apply matches_seq_inv in H. destruct H as (w8 & p8 & c8 & -> & M8 & H).
  pose proof (matches_groupless _ _ _ _ M8 eq_refl) as ->.
  apply matches_seq_inv in H. destruct H as (w9 & p9 & c9 & -> & M9 & H).
  pose proof (matches_groupless _ _ _ _ M9 eq_refl) as ->.
  apply matches_seq_inv in H. destruct H as (g2 & p10 & c10 & -> & M10 & H).
  apply matches_group_inv in M10. destruct M10 as (c10' & M10 & ->).
  pose proof (matches_groupless _ _ _ _ M10 eq_refl) as ->.
  pose proof (matches_groupless _ _ _ _ H eq_refl) as ->.
  exists g1, g2, (q ++ w2 ++ w3 ++ w4 ++ w5 ++ g1 ++ w7 ++ w8 ++ w9 ++ g2 ++ p10).
  repeat split.
  apply matches_star_chr in M10.
  eapply Forall_impl; [exact M10|].
  intros a Ha ->. discriminate.
Qed.

End Inversion.

(** ** The matcher on a serialized record *)

Section Success.

Ltac norm_codes :=
  repeat match goal with
         | |- context [codes ?w] =>
             let v := eval vm_compute in (codes w) in
             change (codes w) with v
         end.

Lemma ok_seq r1 r2 s c k out :
  run r1 s c (fun s1 c1 => run r2 s1 c1 k) = Some out ->
  run (Seq r1 r2) s c k = Some out.
Proof. intros H. exact H. Qed.

Lemma ok_lit a s c k out :
  k s c = Some out -> run (lit a) (a :: s) c k = Some out.
Proof. intros H. simpl. rewrite N.eqb_refl. exact H. Qed.

Lemma ok_word w s c k out :
  k s c = Some out -> run (word w) (w ++ s) c k = Some out.
Proof.
  revert k. induction w as [|a w IH]; intros k H; simpl; [exact H|].
  rewrite N.eqb_refl. apply IH. exact H.
Qed.

(** One more iteration of a star: when the body has a first way of
    matching that consumes something, and the loop succeeds behind it,
    that success is the result. *)
Lemma ok_star_step body n s s' c c' k out :
  (length s' < length s)%nat ->
  (forall k', k' s' c' = Some out -> body s c k' = Some out) ->
  star_loop body n s' c' k = Some out ->
  star_loop body (S n) s c k = Some out.
Proof.
  intros Hlen Hbody Hloop.
  change (star_loop body (S n) s c k)
    with (match body s c (fun s1 c1 =>
                            if (length s1 <? length s)%nat
                            then star_loop body n s1 c1 k else None) with
          | Some o => Some o
          | None => k s c
          end).
  rewrite (Hbody _); [reflexivity|].
  apply Nat.ltb_lt in Hlen. rewrite Hlen. exact Hloop.
Qed.

(** The end of a star: the body fails and the rest of the pattern goes
    on. *)
Lemma ok_star_stop body fuel s c k out :
  (forall k', body s c k' = None) ->
  k s c = Some out ->
  star_loop body fuel s c k = Some out.
Proof.
  intros Hbody Hk. destruct fuel as [|n]; [exact Hk|].
  change (star_loop body (S n) s c k)
    with (match body s c (fun s1 c1 =>
                            if (length s1 <? length s)%nat
                            then star_loop body n s1 c1 k else None) with
          | Some o => Some o
          | None => k s c
          end).
  rewrite Hbody. exact Hk.
Qed.

Lemma run_chr_stops f s c k : stops f s -> run (Chr f) s c k = None.
Proof.
  destruct s as [|a t]; simpl; [reflexivity|]. intros ->. reflexivity.
Qed.

(** A greedy star of a class takes all the characters of the class, and
    the first way of matching is kept when the rest of the pattern
    succeeds behind them. *)
Lemma ok_star_loop_chr f p :
  forall fuel s c k out,
    Forall (fun a => f a = true) p -> stops f s ->
    (length (p ++ s) <= fuel)%nat ->
    k s c = Some out ->
    star_loop (run (Chr f)) fuel (p ++ s) c k = Some out.
Proof.
  induction p as [|a p IH]; intros fuel s c k out Hp Hs Hf Hk.
  - apply ok_star_stop; [|exact Hk].
    intros k'. apply run_chr_stops. exact Hs.
  - destruct fuel as [|n]; simpl in Hf; [lia|].
    inversion Hp as [|? ? Ha Hp']; subst.
    apply (ok_star_step _ n _ (p ++ s) c c); [simpl; lia | |].
    + intros k' Hk'. simpl. rewrite Ha. exact Hk'.
    + apply IH; auto. lia.
Qed.

Lemma ok_star_chr f p s c k out :
  Forall (fun a => f a = true) p -> stops f s ->
  k s c = Some out ->
  run (Star (Chr f)) (p ++ s) c k = Some out.
Proof.
  intros. simpl. apply ok_star_loop_chr; auto.
Qed.

Lemma ok_plus_chr f a s c k out :
  f a = true -> stops f s ->
  k s c = Some out ->
  run (plus (Chr f)) (a :: s) c k = Some out.
Proof.
  intros Ha Hs Hk. unfold plus.
  change (run (Seq (Chr f) (Star (Chr f))) (a :: s) c k)
    with (if f a then run (Star (Chr f)) s c k else None).
  rewrite Ha. apply (ok_star_chr f [] s); auto.
Qed.

Lemma ok_group n r p s c k out :
  (forall k', k' s c = Some out -> run r (p ++ s) c k' = Some out) ->
  k s (<[n := p]> c) = Some out ->
  run (Group n r) (p ++ s) c k = Some out.
Proof.
  intros Hr Hk. simpl. apply Hr. rewrite take_consumed. exact Hk.
Qed.

Lemma name_char_pair b t c k out :
  k t c = Some out -> run name_char (BACKSLASH :: b :: t) c k = Some out.
Proof.
  intros Hk. unfold name_char, none_of, lit, any. cbn [run existsb].
  change (BACKSLASH =? QUOTE) with false. rewrite N.eqb_refl. exact Hk.
Qed.

Lemma name_char_plain a t c k out :
  a <> QUOTE -> a <> BACKSLASH ->
  k t c = Some out -> run name_char (a :: t) c k = Some out.
Proof.
  intros Hq Hb Hk. unfold name_char, none_of, lit, any. cbn [run existsb].
  apply N.eqb_neq in Hq, Hb. rewrite Hq, Hb. cbn [orb negb].
  rewrite Hk. reflexivity.
Qed.

Lemma name_char_quote t c k : run name_char (QUOTE :: t) c k = None.
Proof.
  unfold name_char, none_of, lit, any. cbn [run existsb].
  rewrite N.eqb_refl. reflexivity.
Qed.

Lemma length_escape_char a :
  (1 <= length (escape_char a) <= 2)%nat.
Proof.
  unfold escape_char. destruct (a =? BACKSLASH), (a =? QUOTE); simpl; lia.
Qed.

(** The star of group 1 takes an escaped name up to the closing quote. *)
Lemma ok_name_loop nm :
  forall fuel s c k out,
    (length (_escape nm ++ QUOTE :: s) <= fuel)%nat ->
    k (QUOTE :: s) c = Some out ->
    star_loop (run name_char) fuel (_escape nm ++ QUOTE :: s) c k = Some out.
Proof.
  induction nm as [|a nm IH]; intros fuel s c k out Hf Hk.
  - apply ok_star_stop; [|exact Hk].
    intros k'. apply name_char_quote.
  - rewrite escape_cons in *. rewrite <- app_assoc in *.
    pose proof (length_escape_char a) as Hc.
    rewrite (length_app (escape_char a)) in Hf.
    destruct fuel as [|n]; [lia|].
    apply (ok_star_step _ n _ (_escape nm ++ QUOTE :: s) c c).
    + rewrite (length_app (escape_char a)). lia.
    + intros k' Hk'. unfold escape_char.
      destruct (N.eqb_spec a BACKSLASH) as [->|Hb];
        [|destruct (N.eqb_spec a QUOTE) as [->|Hq]].
      * apply name_char_pair. exact Hk'.
      * apply name_char_pair. exact Hk'.
      * apply name_char_plain; assumption.
    + apply IH; [lia | exact Hk].
Qed.

Lemma ok_name_star nm s c k out :
  k (QUOTE :: s) c = Some out ->
  run (Star name_char) (_escape nm ++ QUOTE :: s) c k = Some out.
Proof. intros H. simpl. apply ok_name_loop; auto. Qed.

(** The text of a record, in terms of its escaped name and its stripped
    suffix. *)
Lemma with_suffix_inside_eq it :
  with_suffix_inside it
  = codes "(field" ++ SPACE :: codes "(name" ++ SPACE :: QUOTE ::
      _escape (name it) ++ QUOTE :: RPAREN ::
      flags_text (strip (suffix it)) ++ [RPAREN].
Proof.
  unfold with_suffix_inside, flags_text.
  destruct (strip (suffix it)); norm_codes; simpl;
    rewrite <- ?app_assoc; reflexivity.
Qed.

(** At a serialized record whose stripped suffix [st] has no closing
    parenthesis, the pattern matches the whole record: group 1 is the
    escaped name and group 2 is [st]. *)
Lemma match_at_record nm st rest :
  stops isspace st -> Forall (fun a => a <> RPAREN) st ->
  match_at FIELD_RE
    (codes "(field" ++ SPACE :: codes "(name" ++ SPACE :: QUOTE ::
       _escape nm ++ QUOTE :: RPAREN :: flags_text st ++ RPAREN :: rest)
  = Some (rest, <[2%nat := st]> (<[1%nat := _escape nm]> ∅)).
Proof.
  intros Hst Hrp. unfold match_at, FIELD_RE.
  assert (Hnos : Forall (fun a => negb (existsb (N.eqb a) [RPAREN]) = true) st).
  { eapply Forall_impl; [exact Hrp|]. intros a Ha. simpl.
    replace (a =? RPAREN) with false by (symmetry; apply N.eqb_neq; exact Ha).
    reflexivity. }
  apply ok_seq, ok_word; cbv beta.
  apply ok_seq, ok_plus_chr; [reflexivity | reflexivity |]; cbv beta.
  apply ok_seq, ok_word; cbv beta.
  apply ok_seq, ok_plus_chr; [reflexivity | reflexivity |]; cbv beta.
  apply ok_seq, ok_lit; cbv beta.
  apply ok_seq, ok_group; [intros k' Hk'; apply ok_name_star; exact Hk'|];
    cbv beta.
  apply ok_seq, ok_lit; cbv beta.
  apply ok_seq, ok_lit; cbv beta.
  apply ok_seq.
  destruct st as [|b st]; simpl flags_text.
  - apply (ok_star_chr isspace [] (RPAREN :: rest)); [constructor | reflexivity |].
    cbv beta. apply ok_seq.
    apply (ok_group 2 _ [] (RPAREN :: rest)).
    + intros k' Hk'.
      apply (ok_star_chr _ [] (RPAREN :: rest)); [constructor | reflexivity | exact Hk'].
    + apply ok_lit. reflexivity.
  - simpl in Hst.
    apply (ok_star_chr isspace [SPACE] ((b :: st) ++ RPAREN :: rest));
      [repeat constructor | exact Hst |].
    cbv beta. apply ok_seq.
    apply (ok_group 2 _ (b :: st) (RPAREN :: rest)).
    + intros k' Hk'.
      apply (ok_star_chr _ (b :: st) (RPAREN :: rest));
        [exact Hnos | reflexivity | exact Hk'].
    + apply ok_lit. reflexivity.
Qed.

End Success.

(** ** The suffix that is read starts with no whitespace *)

Section LeftTrim.

Lemma star_loop_chr_none f p :
  forall fuel s c k,
    Forall (fun a => f a = true) p -> stops f s ->
    (forall u v, p = u ++ v -> k (v ++ s) c = None) ->
    star_loop (run (Chr f)) fuel (p ++ s) c k = None.
Proof.
  induction p as [|a p IH]; intros fuel s c k Hp Hs Hk.
  - destruct fuel as [|n]; [exact (Hk [] [] eq_refl)|].
    change (star_loop (run (Chr f)) (S n) ([] ++ s) c k)
      with (match run (Chr f) s c
                    (fun s1 c1 =>
                       if (length s1 <? length s)%nat
                       then star_loop (run (Chr f)) n s1 c1 k else None) with
            | Some o => Some o
            | None => k s c
            end).
    rewrite run_chr_stops by exact Hs. exact (Hk [] [] eq_refl).
  - inversion Hp as [|? ? Ha Hp']; subst.
    destruct fuel as [|n]; [exact (Hk [] (a :: p) eq_refl)|].
    change (star_loop (run (Chr f)) (S n) ((a :: p) ++ s) c k)
      with (match (if f a
                   then (if (length (p ++ s) <? length ((a :: p) ++ s))%nat
                         then star_loop (run (Chr f)) n (p ++ s) c k
                         else None)
                   else None) with
            | Some o => Some o
            | None => k ((a :: p) ++ s) c
            end).
    rewrite Ha, (IH n s c k Hp' Hs).
    + destruct (_ <? _)%nat; exact (Hk [] (a :: p) eq_refl).
    + intros u v ->. apply (Hk (a :: u) v). reflexivity.
Qed.

(** A text is a run of characters of a class and a rest that does not go
    on with the class. *)
Lemma span_class f s :
  exists p t, s = p ++ t /\ Forall (fun a => f a = true) p /\ stops f t.
Proof.
  induction s as [|a s (p & t & -> & Hp & Ht)].
  - exists [], []. repeat split. constructor.
  - destruct (f a) eqn:E.
    + exists (a :: p), t. repeat split; [constructor; assumption | exact Ht].
    + exists [], (a :: p ++ t). repeat split; [constructor | exact E].
Qed.

Lemma tail_re_prefix t c s' c' :
  run tail_re t c (fun s1 c1 => Some (s1, c1)) = Some (s', c') ->
  exists g, c' = <[2%nat := g]> c /\ t = g ++ RPAREN :: s'.
Proof.
  intros H. apply run_sound in H.
  destruct H as (p & s1 & c1 & -> & M & [= -> ->]).
  unfold tail_re in M.
  apply matches_seq_inv in M. destruct M as (g & q & c2 & -> & Mg & Mq).
  apply matches_group_inv in Mg. destruct Mg as (c3 & Mg & ->).
  pose proof (matches_groupless _ _ _ _ Mg eq_refl) as ->.
  apply matches_chr_inv in Mq. destruct Mq as (a & -> & Ha & ->).
  apply N.eqb_eq in Ha. subst a.
  exists g. split; [reflexivity|]. rewrite <- app_assoc. reflexivity.
Qed.

Lemma not_rparen_true a :
  a <> RPAREN -> negb (existsb (N.eqb a) [RPAREN]) = true.
Proof.
  intros Ha. simpl. apply N.eqb_neq in Ha. rewrite Ha. reflexivity.
Qed.

Lemma not_rparen_false a :
  negb (existsb (N.eqb a) [RPAREN]) = false -> a = RPAREN.
Proof.
  simpl. destruct (N.eqb_spec a RPAREN) as [E|E]; [auto | discriminate].
Qed.

Lemma isspace_not_rparen a : isspace a = true -> a <> RPAREN.
Proof. intros H ->. discriminate. Qed.

(** Whitespace before the flags cannot make the end of the pattern
    match: it would only be more text without closing parenthesis. *)
Lemma tail_re_shift ws t c :
  Forall (fun a => isspace a = true) ws ->
  run tail_re t c (fun s1 c1 => Some (s1, c1)) = None ->
  run tail_re (ws ++ t) c (fun s1 c1 => Some (s1, c1)) = None.
Proof.
  intros Hws Ht.
  destruct (span_class (fun a => negb (existsb (N.eqb a) [RPAREN])) t)
    as (g & rest & -> & Hg & Hrest).
  destruct rest as [|a rest].
  - rewrite app_nil_r. rewrite <- (app_nil_r (ws ++ g)).
    unfold tail_re. apply (star_loop_chr_none _ (ws ++ g) _ []).
    + apply Forall_app. split; [|exact Hg].
      eapply Forall_impl; [exact Hws|]. intros a Ha.
      apply not_rparen_true, isspace_not_rparen, Ha.
    + exact I.
    + intros u v E. rewrite app_nil_r.
      destruct v as [|b v]; [reflexivity|]. simpl.
      assert (Hb : negb (existsb (N.eqb b) [RPAREN]) = true).
      { assert (Hall : Forall (fun a => negb (existsb (N.eqb a) [RPAREN]) = true)
                         (ws ++ g)).
        { apply Forall_app. split; [|exact Hg].
          eapply Forall_impl; [exact Hws|]. intros a Ha.
          apply not_rparen_true, isspace_not_rparen, Ha. }
        rewrite E in Hall. apply Forall_app in Hall. destruct Hall as [_ Hv].
        inversion Hv; assumption. }
      simpl in Hb. rewrite (N.eqb_sym RPAREN b).
      destruct (b =? RPAREN); [discriminate | reflexivity].
  - simpl in Hrest. apply not_rparen_false in Hrest. subst a.
    exfalso. revert Ht. unfold tail_re.
    change (run (Seq ?a ?b) ?s ?c ?k)
      with (run a s c (fun s1 c1 => run b s1 c1 k)).
    erewrite (ok_group 2 _ g (RPAREN :: rest)); [discriminate| |].
    + intros k' Hk'. apply ok_star_chr; [exact Hg | reflexivity | exact Hk'].
    + apply ok_lit. reflexivity.
Qed.

(** After the name part: the whitespace is passed over entirely, and
    group 2 starts with a character that is no whitespace. *)
Lemma flags_trim s c s' c' :
  run (Seq (Star space) tail_re) s c (fun s1 c1 => Some (s1, c1))
  = Some (s', c') ->
  exists g, c' !! 2%nat = Some g /\ stops isspace g.
Proof.
  destruct (span_class isspace s) as (ws & t & -> & Hws & Ht).
  change (run (Seq (Star space) tail_re) (ws ++ t) c
            (fun s1 c1 => Some (s1, c1)))
    with (run (Star (Chr isspace)) (ws ++ t) c
            (fun s1 c1 => run tail_re s1 c1 (fun s2 c2 => Some (s2, c2)))).
  destruct (run tail_re t c (fun s2 c2 => Some (s2, c2))) as [[s0 c0]|] eqn:E.
  - rewrite (ok_star_chr isspace ws t c _ (s0, c0) Hws Ht E).
    intros [= -> ->].
    apply tail_re_prefix in E. destruct E as (g & -> & ->).
    exists g. split; [apply lookup_insert_eq|].
    destruct g as [|a g]; [exact I | exact Ht].
  - simpl run.
    rewrite (star_loop_chr_none isspace ws); [discriminate | exact Hws | exact Ht |].
    intros u v ->. apply tail_re_shift; [|exact E].
    apply Forall_app in Hws. tauto.
Qed.

Lemma run_seq_cont r1 r2 s c k out :
  run (Seq r1 r2) s c k = Some out ->
  exists s1 c1, run r2 s1 c1 k = Some out.
Proof.
  intros H. simpl in H. apply run_sound in H.
  destruct H as (_ & s1 & c1 & _ & _ & H). eauto.
Qed.

Lemma match_at_trim s s' c :
  match_at FIELD_RE s = Some (s', c) ->
  exists g, c !! 2%nat = Some g /\ stops isspace g.
Proof.
  unfold match_at, FIELD_RE. intros H.
  do 8 (apply run_seq_cont in H; destruct H as (? & ? & H)).
  exact (flags_trim _ _ _ _ H).
Qed.

End LeftTrim.

(** ** [finditer] over a serialized list *)

Section Scan.

Lemma finditer_from_enough r :
  forall n m s, (length s < n)%nat -> (length s < m)%nat ->
  finditer_from n r s = finditer_from m r s.
Proof.
  induction n as [|n IH]; intros m s Hn Hm; [lia|].
  destruct m as [|m]; [lia|]. simpl.
  destruct (match_at r s) as [[s' c]|].
  - f_equal. destruct (length s' <? length s)%nat eqn:E.
    + apply Nat.ltb_lt in E. apply IH; lia.
    + destruct s as [|a t]; [reflexivity|]. simpl in *. apply IH; lia.
  - destruct s as [|a t]; [reflexivity|]. simpl in *. apply IH; lia.
Qed.

Lemma finditer_none r a s :
  match_at r (a :: s) = None -> finditer r (a :: s) = finditer r s.
Proof.
  intros H. unfold finditer.
  change (finditer_from (S (length (a :: s))) r (a :: s))
    with (match match_at r (a :: s) with
          | Some (s', c) =>
              c :: (if (length s' <? length (a :: s))%nat
                    then finditer_from (length (a :: s)) r s'
                    else finditer_from (length (a :: s)) r s)
          | None => finditer_from (length (a :: s)) r s
          end).
  rewrite H. reflexivity.
Qed.

Lemma finditer_some r s s' c :
  match_at r s = Some (s', c) -> (length s' < length s)%nat ->
  finditer r s = c :: finditer r s'.
Proof.
  intros H Hlen. unfold finditer.
  change (finditer_from (S (length s)) r s)
    with (match match_at r s with
          | Some (s', c) =>
              c :: (if (length s' <? length s)%nat
                    then finditer_from (length s) r s'
                    else match s with
                         | [] => []
                         | _ :: t => finditer_from (length s) r t
                         end)
          | None =>
              match s with
              | [] => []
              | _ :: t => finditer_from (length s) r t
              end
          end).
  rewrite H.
  apply Nat.ltb_lt in Hlen as Hb. rewrite Hb. f_equal.
  apply finditer_from_enough; lia.
Qed.

Lemma match_at_nil : match_at FIELD_RE [] = None.
Proof. reflexivity. Qed.

(** A match of [FIELD_RE] starts at an opening parenthesis... *)
Lemma match_at_other a s : a <> LPAREN -> match_at FIELD_RE (a :: s) = None.
Proof.
  intros Ha. unfold match_at, FIELD_RE.
  change (codes "(field") with (LPAREN :: codes "field").
  cbn [word foldr run lit].
  replace (LPAREN =? a) with false
    by (symmetry; apply N.eqb_neq; congruence).
  reflexivity.
Qed.

(** ... that the letter f follows. *)
Lemma match_at_paren_other b s :
  b <> 102 -> match_at FIELD_RE (LPAREN :: b :: s) = None.
Proof.
  intros Hb. unfold match_at, FIELD_RE.
  change (codes "(field") with (LPAREN :: 102 :: codes "ield").
  cbn [word foldr run lit]. rewrite N.eqb_refl.
  replace (102 =? b) with false
    by (symmetry; apply N.eqb_neq; congruence).
  reflexivity.
Qed.

Lemma finditer_skip w s :
  Forall (fun a => a <> LPAREN) w ->
  finditer FIELD_RE (w ++ s) = finditer FIELD_RE s.
Proof.
  induction 1 as [|a w Ha _ IH]; simpl; [reflexivity|].
  rewrite finditer_none; [exact IH|]. apply match_at_other. exact Ha.
Qed.

(** The opening tag holds no record. *)
Lemma finditer_tag s :
  finditer FIELD_RE (codes "(templatefields" ++ s) = finditer FIELD_RE s.
Proof.
  change (codes "(templatefields")
    with (LPAREN :: 116 :: codes "emplatefields").
  simpl app. rewrite finditer_none by (apply match_at_paren_other; discriminate).
  apply (finditer_skip (116 :: codes "emplatefields")).
  vm_compute. repeat (constructor; [discriminate|]). constructor.
Qed.

Lemma join_nil parts : join [] parts = concat parts.
Proof.
  induction parts as [|p [|q rest] IH]; simpl in *;
    [reflexivity | rewrite app_nil_r; reflexivity | rewrite IH; reflexivity].
Qed.

Lemma stops_strip s : stops isspace (strip s).
Proof.
  destruct (strip s) as [|c t] eqn:E; simpl; [exact I|].
  exact (strip_head _ _ _ E).
Qed.

Lemma finditer_records its :
  Forall (fun it => ~ In RPAREN (suffix it)) its ->
  finditer FIELD_RE (concat (List.map with_suffix_inside its) ++ [RPAREN])
  = List.map record_groups its.
Proof.
  induction 1 as [|it its Hit _ IH].
  - simpl. rewrite finditer_none by (apply match_at_other; discriminate).
    reflexivity.
  - rewrite !List.map_cons, concat_cons.
    rewrite <- app_assoc, with_suffix_inside_eq.
    repeat (rewrite <- ?app_assoc; simpl app).
    erewrite finditer_some.
    + rewrite IH. reflexivity.
    + apply match_at_record; [apply stops_strip|].
      apply Forall_forall. intros a Ha ->. apply Hit.
      apply strip_In, list_elem_of_In. exact Ha.
    + repeat (rewrite ?length_app; cbn [length]). lia.
Qed.

Lemma finditer_build its :
  Forall (fun it => ~ In RPAREN (suffix it)) its ->
  finditer FIELD_RE (build_field_names_sexpr its) = List.map record_groups its.
Proof.
  intros H. unfold build_field_names_sexpr.
  rewrite finditer_tag, join_nil. apply finditer_records. exact H.
Qed.

Lemma parse_matches_groups its :
  parse_matches (List.map record_groups its) = Ok (List.map normalize its).
Proof.
  induction its as [|it its IH]; simpl; [reflexivity|].
  rewrite IH. unfold group, record_groups. simpl.
  rewrite lookup_insert_ne by discriminate.
  rewrite !lookup_insert_eq. simpl.
  rewrite unescape_escape_id. unfold normalize, FieldItem_init.
  destruct (strip (suffix it)); reflexivity.
Qed.

(** Reading back what was written: every record comes back with its name
    and its stripped suffix, when no suffix holds a closing parenthesis. *)
Lemma parse_build its :
  Forall (fun it => ~ In RPAREN (suffix it)) its ->
  parse_field_names_sexpr (Some (build_field_names_sexpr its))
  = Ok (List.map normalize its).
Proof.
  intros H. unfold parse_field_names_sexpr. simpl.
  rewrite finditer_build by exact H. apply parse_matches_groups.
Qed.

End Scan.

(** ** The codec *)

Lemma match_at_groups s s' c :
  match_at FIELD_RE s = Some (s', c) ->
  exists g1 g2,
    c = <[2%nat := g2]> (<[1%nat := g1]> ∅)
    /\ ~ In RPAREN g2 /\ stops isspace g2.
Proof.
  intros H. destruct (match_at_trim _ _ _ H) as (g & Hg & Hstop).
  apply match_at_sound in H. destruct H as (p & _ & M).
  apply field_re_groups in M. destruct M as (g1 & g2 & q & -> & F & _).
  rewrite lookup_insert_eq in Hg. injection Hg as <-.
  exists g1, g2. split; [reflexivity|]. split; [|exact Hstop].
  intros Hin. rewrite Forall_forall in F.
  apply (F RPAREN); [apply list_elem_of_In; exact Hin | reflexivity].
Qed.

Lemma parse_matches_ok ms :
  Forall (fun c : caps =>
            exists g1 g2, c = <[2%nat := g2]> (<[1%nat := g1]> ∅)
                          /\ ~ In RPAREN g2 /\ stops isspace g2) ms ->
  exists its, parse_matches ms = Ok its
              /\ length its = length ms
              /\ Forall (fun it => ~ In RPAREN (suffix it)) its
              /\ Forall (fun it => stops isspace (suffix it)) its.
Proof.
  induction 1 as [|c ms (g1 & g2 & -> & Hg & Hs) _ (its & IH & Hlen & Hno & Hst)];
    simpl.
  - exists []. repeat split; constructor.
  - unfold group. rewrite lookup_insert_ne by discriminate.
    rewrite !lookup_insert_eq. simpl. rewrite IH. simpl.
    eexists. split; [reflexivity|].
    split; [simpl; rewrite Hlen; reflexivity|].
    split; (constructor; [|assumption]); simpl;
      destruct g2 as [|a g2]; simpl; auto.
Qed.

(** Every text is parsed; no suffix read holds a closing parenthesis, and
    none starts with whitespace. *)
Lemma parse_ok x :
  exists its, parse_field_names_sexpr x = Ok its
              /\ length its = length (finditer FIELD_RE (default [] x))
              /\ Forall (fun it => ~ In RPAREN (suffix it)) its
              /\ Forall (fun it => stops isspace (suffix it)) its.
Proof.
  unfold parse_field_names_sexpr.
  apply parse_matches_ok. unfold finditer. apply finditer_from_Forall.
  intros s s' c H. exact (match_at_groups _ _ _ H).
Qed.

Lemma map_key_normalize its :
  List.map key (List.map normalize its) = List.map key its.
Proof.
  rewrite List.map_map. apply List.map_ext. intros it.
  unfold key, normalize. simpl. rewrite strip_idem. reflexivity.
Qed.

(** C1, as amended. For every list of records in which no suffix holds a
    closing parenthesis, parsing the serialization gives a list of the
    same length whose (name, stripped suffix) pairs are, in order, those
    of the list. *)
Theorem parse_build_roundtrip (S : list FieldItem) :
  Forall (fun it => ~ In RPAREN (suffix it)) S ->
  exists P,
    parse_field_names_sexpr (Some (build_field_names_sexpr S)) = Ok P
    /\ length P = length S
    /\ List.map key P = List.map key S.
Proof.
  intros H. exists (List.map normalize S).
  split; [apply parse_build; exact H|].
  split; [apply length_map | apply map_key_normalize].
Qed.

Lemma parse_build_roundtrip_witness :
  exists P,
    parse_field_names_sexpr
      (Some (build_field_names_sexpr
               [mkFieldItem (codes "MFR") (codes " visible  url ")])) = Ok P
    /\ length P = 1%nat
    /\ List.map key P = [(codes "MFR", codes "visible  url")].
Proof.
  apply (parse_build_roundtrip
           [mkFieldItem (codes "MFR") (codes " visible  url ")]).
  repeat constructor. vm_compute. intuition discriminate.
Defined.

(** C1, as stated, fails on a suffix with a closing parenthesis: the
    record X with suffix a)b is written and read back as X with suffix
    a. *)
Lemma parse_build_rparen :
  parse_field_names_sexpr
    (Some (build_field_names_sexpr [mkFieldItem (codes "X") (codes "a)b")]))
  = Ok [mkFieldItem (codes "X") (codes "a")]
  /\ List.map key [mkFieldItem (codes "X") (codes "a")]
     <> List.map key [mkFieldItem (codes "X") (codes "a)b")].
Proof. split; [vm_compute; reflexivity | vm_compute; discriminate]. Qed.

(** C2, as amended. For every input text [x], [parse x] succeeds, and
    parsing the serialization of its result gives the same number of
    records, each with the same name and with the suffix of [parse x]
    stripped of its surrounding whitespace. *)
Theorem parse_build_parse (x : option (list N)) :
  exists P,
    parse_field_names_sexpr x = Ok P
    /\ parse_field_names_sexpr (Some (build_field_names_sexpr P))
       = Ok (List.map normalize P).
Proof.
  destruct (parse_ok x) as (P & HP & _ & Hno & _).
  exists P. split; [exact HP | apply parse_build; exact Hno].
Qed.

(** C2, as stated, fails when a suffix ends with whitespace: parse keeps
    the space at the end of the suffix, and it is gone after writing and
    reading again. *)
Lemma parse_build_parse_trailing :
  let x := codes "(field (name " ++ [QUOTE] ++ codes "A" ++ [QUOTE]
           ++ codes ") v )" in
  let P0 := [mkFieldItem (codes "A") (codes "v ")] in
  let P1 := [mkFieldItem (codes "A") (codes "v")] in
  parse_field_names_sexpr (Some x) = Ok P0
  /\ parse_field_names_sexpr (Some (build_field_names_sexpr P0)) = Ok P1
  /\ P1 <> P0.
Proof.
  cbv zeta. split; [|split].
  - vm_compute. reflexivity.
  - vm_compute. reflexivity.
  - vm_compute. discriminate.
Qed.

(** C5. [build_field_names_sexpr] writes the opening tag, the texts of
    the records in order with nothing between them, and one closing
    parenthesis.  The text of a record is the record opening with its
    name part, where the name stands between double quotes with every
    backslash doubled and a backslash before every double quote; then,
    only when the suffix without its surrounding whitespace is not empty,
    one space and that text (the suffix between two runs of whitespace,
    neither starting nor ending with whitespace: there is one such text
    only); then the closing parenthesis, directly after the name part
    when that text is empty. *)
Theorem build_field_names_sexpr_spec (its : list FieldItem) :
  exists texts,
    build_field_names_sexpr its
    = codes "(templatefields" ++ concat texts ++ codes ")"
    /\ Forall2 (fun it text =>
         exists t,
           trimmed_of (suffix it) t
           /\ (forall t', trimmed_of (suffix it) t' -> t' = t)
           /\ text
              = codes "(field (name " ++ [QUOTE]
                  ++ flat_map escape_char (name it) ++ [QUOTE] ++ codes ")"
                  ++ match t with [] => [] | _ :: _ => SPACE :: t end
                  ++ codes ")") its texts.
Proof.
  exists (List.map with_suffix_inside its). split.
  - unfold build_field_names_sexpr. rewrite join_nil. reflexivity.
  - induction its as [|it its IH]; [constructor|].
    rewrite List.map_cons. constructor; [|exact IH].
    exists (strip (suffix it)). split; [apply strip_trimmed|].
    split.
    + intros t' Ht'. rewrite (trimmed_strip _ _ Ht').
      reflexivity.
    + unfold with_suffix_inside. rewrite escape_flat_map.
      destruct (strip (suffix it)); reflexivity.
Qed.

(** C6. On the example text of the specification the two suffixes read
    are visible and url, without the space before them; and, whatever the
    text, no suffix read starts with whitespace: the whitespace after the
    name part is matched by the pattern before group 2 begins. *)
Theorem parse_example_suffixes :
  parse_field_names_sexpr (Some example_text)
  = Ok [mkFieldItem (codes "MFR") (codes "visible");
        mkFieldItem (codes "URL") (codes "url")]
  /\ forall x, exists its,
       parse_field_names_sexpr x = Ok its
       /\ Forall (fun it => stops isspace (suffix it)) its.
Proof.
  split; [vm_compute; reflexivity|].
  intros x. destruct (parse_ok x) as (its & H & _ & _ & Hs). eauto.
Qed.

(** C9. [parse_field_names_sexpr] returns a list for every input, a text
    or an absent one; when no piece of the text is a word of [FIELD_RE]
    the list is empty, and only then. *)
Theorem parse_total_and_empty (x : option (list N)) :
  (exists its, parse_field_names_sexpr x = Ok its)
  /\ (~ has_record (default [] x) -> parse_field_names_sexpr x = Ok [])
  /\ (has_record (default [] x) -> parse_field_names_sexpr x <> Ok []).
Proof.
  split; [|split].
  - destruct (parse_ok x) as (its & H & _). eauto.
  - intros Hno. unfold parse_field_names_sexpr, finditer.
    rewrite finditer_from_nil; [reflexivity|].
    intros pre t E.
    destruct (match_at FIELD_RE t) as [[s' c]|] eqn:M; [|reflexivity].
    exfalso. apply Hno.
    apply match_at_sound in M. destruct M as (p & -> & M).
    exists pre, p, s'. split; [exact E | exists c; exact M].
  - intros (pre & p & post & E & Hp).
    destruct (parse_ok x) as (its & H & Hlen & _).
    rewrite H. intros [= ->].
    assert (Hf : finditer FIELD_RE (default [] x) <> []).
    { rewrite E. apply finditer_from_found; [exact Hp | lia]. }
    destruct (finditer FIELD_RE (default [] x)); [congruence | discriminate].
Qed.

(** A text without opening parenthesis holds no record. *)
Lemma no_record_without_paren t :
  ~ In LPAREN t -> ~ has_record t.
Proof.
  intros Hno (pre & p & post & -> & c & M).
  apply field_re_groups in M. destruct M as (_ & _ & q & _ & _ & ->).
  apply Hno. rewrite in_app_iff. right. left. reflexivity.
Qed.

Lemma parse_total_and_empty_witness :
  parse_field_names_sexpr (Some (codes "no fields here")) = Ok [].
Proof.
  apply (parse_total_and_empty (Some (codes "no fields here"))).
  apply no_record_without_paren. vm_compute. intuition discriminate.
Defined.

(** C10. Every record that [parse_field_names_sexpr] produces has a
    suffix without closing parenthesis, whatever the text; a record built
    by a caller can have one. *)
Theorem parse_suffix_no_rparen (x : option (list N)) :
  (exists its, parse_field_names_sexpr x = Ok its
               /\ Forall (fun it => ~ In RPAREN (suffix it)) its)
  /\ In RPAREN (suffix (FieldItem_init (codes "X") (Some (codes "a)b")))).
Proof.
  split; [|vm_compute; auto].
  destruct (parse_ok x) as (its & H & _ & Hno & _). eauto.
Qed.

(** ** The dialog *)

#[local] Arguments refresh : simpl never.

Section Dialog.

Lemma py_pos_in_range len i :
  (0 <= i < Z.of_nat len)%Z -> py_pos len i = Ok (Z.to_nat i).
Proof.
  intros H. unfold py_pos.
  replace ((0 <=? i) && (i <? Z.of_nat len))%Z with true; [reflexivity|].
  symmetry. apply andb_true_intro. split; [apply Z.leb_le | apply Z.ltb_lt]; lia.
Qed.

Lemma getitem_in_range {A} (l : list A) i :
  (0 <= i < Z.of_nat (length l))%Z ->
  exists a, l !! Z.to_nat i = Some a /\ getitem l i = Ok a.
Proof.
  intros H. unfold getitem. rewrite py_pos_in_range by exact H. simpl.
  destruct (lookup_lt_is_Some_2 l (Z.to_nat i)) as [a Ha]; [lia|].
  exists a. rewrite Ha. auto.
Qed.

Lemma setitem_in_range {A} (l : list A) i v :
  (0 <= i < Z.of_nat (length l))%Z ->
  setitem l i v = Ok (<[Z.to_nat i := v]> l).
Proof.
  intros H. unfold setitem. rewrite py_pos_in_range by exact H. reflexivity.
Qed.

Lemma swap_swapped {A} (l : list A) i j a b :
  i <> j -> l !! i = Some a -> l !! j = Some b ->
  swapped i j l (<[i := b]> (<[j := a]> l)).
Proof.
  intros Hij Hi Hj.
  pose proof (lookup_lt_Some _ _ _ Hi). pose proof (lookup_lt_Some _ _ _ Hj).
  repeat split.
  - rewrite !length_insert. reflexivity.
  - rewrite list_lookup_insert_eq by (rewrite length_insert; lia). congruence.
  - rewrite list_lookup_insert_ne by exact Hij.
    rewrite list_lookup_insert_eq by lia. congruence.
  - intros k Hki Hkj.
    rewrite !list_lookup_insert_ne by congruence. reflexivity.
Qed.

Lemma refresh_items sel its : items (refresh sel its) = its.
Proof.
  unfold refresh. destruct sel as [i|].
  - destruct ((0 <=? i) && (i <? Z.of_nat (length its)))%Z; reflexivity.
  - destruct its; reflexivity.
Qed.

Lemma refresh_lb_ok sel its : lb_ok (refresh sel its).
Proof.
  unfold refresh, lb_ok. destruct sel as [i|].
  - destruct ((0 <=? i) && (i <? Z.of_nat (length its)))%Z eqn:E; simpl.
    + right. apply andb_prop in E. destruct E as [E1 E2].
      apply Z.leb_le in E1. apply Z.ltb_lt in E2. lia.
    + left. reflexivity.
  - destruct its; simpl; [left; reflexivity | right; lia].
Qed.

Lemma move_swaps dir d :
  in_range (length (items d)) (lb_sel d) ->
  in_range (length (items d)) (neighbour dir (lb_sel d)) ->
  exists d', move dir d = Ok d' /\ lb_ok d'
    /\ swapped (Z.to_nat (lb_sel d)) (Z.to_nat (neighbour dir (lb_sel d)))
         (items d) (items d').
Proof.
  unfold in_range. intros Hi Hj.
  destruct (getitem_in_range (items d) _ Hi) as (a & Ha & Ga).
  destruct (getitem_in_range (items d) _ Hj) as (b & Hb & Gb).
  assert (Hne : Z.to_nat (lb_sel d) <> Z.to_nat (neighbour dir (lb_sel d)))
    by (destruct dir; simpl in *; lia).
  destruct dir; simpl in *.
  - unfold _move_up.
    replace ((lb_sel d =? NOT_FOUND) || (lb_sel d =? 0))%Z with false
      by (symmetry; apply orb_false_intro; apply Z.eqb_neq; unfold NOT_FOUND; lia).
    rewrite Ga, Gb. cbn [bind].
    rewrite setitem_in_range by exact Hj. cbn [bind].
    rewrite setitem_in_range by (rewrite length_insert; exact Hi). cbn [bind].
    eexists. split; [reflexivity|]. split; [apply refresh_lb_ok|].
    rewrite refresh_items. apply swap_swapped; assumption.
  - unfold _move_down.
    replace ((lb_sel d =? NOT_FOUND)
             || (Z.of_nat (length (items d)) - 1 <=? lb_sel d))%Z with false
      by (symmetry; apply orb_false_intro;
          [apply Z.eqb_neq; unfold NOT_FOUND | apply Z.leb_gt]; lia).
    rewrite Ga, Gb. cbn [bind].
    rewrite setitem_in_range by exact Hj. cbn [bind].
    rewrite setitem_in_range by (rewrite length_insert; exact Hi). cbn [bind].
    eexists. split; [reflexivity|]. split; [apply refresh_lb_ok|].
    rewrite refresh_items. apply swap_swapped; assumption.
Qed.

Lemma move_noop dir d :
  lb_ok d ->
  ~ (in_range (length (items d)) (lb_sel d)
     /\ in_range (length (items d)) (neighbour dir (lb_sel d))) ->
  move dir d = Ok d.
Proof.
  unfold lb_ok, in_range. intros Hok Hno.
  destruct dir; simpl in *.
  - unfold _move_up.
    replace ((lb_sel d =? NOT_FOUND) || (lb_sel d =? 0))%Z with true;
      [reflexivity|].
    symmetry. apply orb_true_intro.
    destruct Hok as [E|R]; [left; apply Z.eqb_eq; exact E|].
    right. apply Z.eqb_eq. lia.
  - unfold _move_down.
    replace ((lb_sel d =? NOT_FOUND)
             || (Z.of_nat (length (items d)) - 1 <=? lb_sel d))%Z with true;
      [reflexivity|].
    symmetry. apply orb_true_intro.
    destruct Hok as [E|R]; [left; apply Z.eqb_eq; exact E|].
    right. apply Z.leb_le. lia.
Qed.

(** A move of a dialog whose selection is none or a position of the
    list: an exchange, or nothing. *)
Lemma move_cases dir d :
  lb_ok d ->
  (in_range (length (items d)) (lb_sel d)
   /\ in_range (length (items d)) (neighbour dir (lb_sel d))
   /\ exists d', move dir d = Ok d' /\ lb_ok d'
        /\ swapped (Z.to_nat (lb_sel d))
             (Z.to_nat (neighbour dir (lb_sel d))) (items d) (items d'))
  \/ (~ (in_range (length (items d)) (lb_sel d)
         /\ in_range (length (items d)) (neighbour dir (lb_sel d)))
      /\ move dir d = Ok d).
Proof.
  intros Hok.
  destruct (Z_lt_dec (lb_sel d) 0) as [Hneg|Hpos];
    [right; split; [unfold in_range; lia|];
     apply move_noop; [assumption | unfold in_range; lia]|].
  destruct (Z_lt_dec (neighbour dir (lb_sel d)) 0) as [Hn|Hn];
    [right; split; [unfold in_range; lia|];
     apply move_noop; [assumption | unfold in_range; lia]|].
  destruct (Z_lt_dec (neighbour dir (lb_sel d))
              (Z.of_nat (length (items d)))) as [Hm|Hm];
    [|right; split; [unfold in_range; lia|];
      apply move_noop; [assumption | unfold in_range; lia]].
  left.
  assert (Hi : in_range (length (items d)) (lb_sel d)).
  { unfold in_range. destruct Hok as [E|R]; [unfold NOT_FOUND in E; lia|lia]. }
  assert (Hj : in_range (length (items d)) (neighbour dir (lb_sel d)))
    by (unfold in_range; lia).
  destruct (move_swaps dir d Hi Hj) as (d' & Hd' & Hok' & Hsw).
  split; [exact Hi|]. split; [exact Hj|]. eauto.
Qed.

End Dialog.

(** C8. For every selection that the list box reports (no selection, or a
    position of the list), a move returns without exception.  When the
    selected position and its neighbour in the direction of the move are
    both positions of the list, the two records are exchanged and every
    other record stays where it is.  Otherwise, that is for the first
    position going up, the last position going down and the selection
    that is out of range ([NOT_FOUND]), the dialog is unchanged. *)
Theorem move_spec (dir : direction) (d : OrderDialog) :
  lb_ok d ->
  exists d', move dir d = Ok d'
    /\ (in_range (length (items d)) (lb_sel d)
        /\ in_range (length (items d)) (neighbour dir (lb_sel d)) ->
        swapped (Z.to_nat (lb_sel d)) (Z.to_nat (neighbour dir (lb_sel d)))
          (items d) (items d'))
    /\ (~ (in_range (length (items d)) (lb_sel d)
           /\ in_range (length (items d)) (neighbour dir (lb_sel d))) ->
        d' = d).
Proof.
  intros Hok.
  destruct (move_cases dir d Hok)
    as [(Hi & Hj & d' & Hd' & _ & Hsw) | (Hno & Hd)].
  - exists d'. split; [exact Hd'|].
    split; [intros _; exact Hsw | intros H; exfalso; apply H; split; assumption].
  - exists d. split; [exact Hd|].
    split; [intros H; contradiction | reflexivity].
Qed.

Lemma move_spec_witness :
  let d := mkDialog [mkFieldItem (codes "MFR") (codes "visible");
                     mkFieldItem (codes "URL") (codes "url")] 0 in
  lb_ok d
  /\ exists d', move Down d = Ok d' /\ swapped 0 1 (items d) (items d').
Proof.
  cbv zeta. split; [right; simpl; lia|].
  destruct (move_spec Down
              (mkDialog [mkFieldItem (codes "MFR") (codes "visible");
                         mkFieldItem (codes "URL") (codes "url")] 0))
    as (d' & H & Hsw & _).
  - right. simpl. lia.
  - exists d'. split; [exact H|].
    apply Hsw. unfold in_range. simpl. lia.
Defined.

(** C7. [on_add] with the entry text [v]: the name is [v] stripped.  When
    the name is not empty and no record of the list has it, exactly one
    record, with that name and an empty suffix, is appended; otherwise
    the dialog is unchanged. *)
Theorem on_add_spec (v : list N) (d : OrderDialog) :
  let n := strip v in
  let fresh := n <> [] /\ Forall (fun it => name it <> n) (items d) in
  (fresh /\ items (on_add (Some v) d) = items d ++ [mkFieldItem n []])
  \/ (~ fresh /\ on_add (Some v) d = d).
Proof.
  cbv zeta. unfold on_add.
  destruct (decide (strip v = [])) as [E|E].
  - right. rewrite bool_decide_eq_true_2 by exact E. simpl.
    split; [intros [H _]; exact (H E) | reflexivity].
  - rewrite bool_decide_eq_false_2 by exact E. simpl.
    destruct (forallb _ (items d)) eqn:F.
    + left. rewrite refresh_items. split; [|reflexivity].
      split; [exact E|].
      apply Forall_forall. intros it Hit.
      rewrite forallb_forall in F. apply list_elem_of_In in Hit.
      specialize (F it Hit). apply negb_true_iff in F.
      apply bool_decide_eq_false_1 in F. exact F.
    + right. split; [|reflexivity].
      intros [_ H].
      assert (F' : forallb
                (fun it => negb (bool_decide (name it = strip v))) (items d)
              = true).
      { apply forallb_forall. intros it Hit. apply negb_true_iff.
        apply bool_decide_eq_false_2.
        rewrite Forall_forall in H. apply H, list_elem_of_In. exact Hit. }
      congruence.
Qed.

(** ** Import *)

Section Importing.

Lemma suffix_map_notin (post : list FieldItem) (m : gmap (list N) (list N)) n :
  n ∉ List.map name post ->
  foldl (fun m it => <[name it := suffix it]> m) m post !! n = m !! n.
Proof.
  revert m. induction post as [|it post IH]; intros m H; simpl; [reflexivity|].
  simpl in H. apply not_elem_of_cons in H. destruct H as [Hne H].
  rewrite IH by exact H. apply lookup_insert_ne. congruence.
Qed.

(** The dictionary holds, for a name, the suffix of the last item with
    that name. *)
Lemma suffix_map_last pre it post :
  name it ∉ List.map name post ->
  suffix_map (pre ++ it :: post) !! name it = Some (suffix it).
Proof.
  intros Hn. unfold suffix_map. rewrite foldl_app. simpl.
  rewrite suffix_map_notin by exact Hn. apply lookup_insert_eq.
Qed.

Lemma suffix_map_absent its n :
  n ∉ List.map name its -> suffix_map its !! n = None.
Proof.
  intros Hn. unfold suffix_map. rewrite suffix_map_notin by exact Hn.
  apply lookup_empty.
Qed.

Lemma import_loop m names :
  forall acc (seen : gset (list N)),
    foldl (import_step m) (acc, seen) names
    = (acc ++ List.map (imported m)
                (filter (fun n => n ∉ seen) (first_occurrences (texts names))),
       seen ∪ list_to_set (texts names)).
Proof.
  induction names as [|j names IH]; intros acc seen; simpl.
  - rewrite app_nil_r. f_equal. set_solver.
  - unfold texts. simpl. fold (texts names).
    destruct (as_str j) as [x|] eqn:Ej; simpl; [|apply IH].
    rewrite filter_cons.
    destruct (decide (x ∈ seen)) as [Hin|Hout].
    + rewrite bool_decide_eq_true_2 by exact Hin.
      rewrite decide_False by (intros H; exact (H Hin)).
      rewrite IH. f_equal.
      * f_equal. f_equal. rewrite list_filter_filter.
        apply list_filter_iff. intros y. simpl.
        split; [|intros [Hy _]; exact Hy].
        intros Hy. split; [exact Hy | intros ->; exact (Hy Hin)].
      * set_solver.
    + rewrite bool_decide_eq_false_2 by exact Hout.
      rewrite decide_True by exact Hout.
      rewrite IH. rewrite <- app_assoc. simpl. f_equal.
      * f_equal. f_equal. f_equal. rewrite list_filter_filter.
        apply list_filter_iff. intros y. set_solver.
      * set_solver.
Qed.

Lemma keep_loop (seen : gset (list N)) its :
  forall acc,
    foldl (keep_step seen) acc its
    = acc ++ filter (fun it => name it ∉ seen) its.
Proof.
  induction its as [|it its IH]; intros acc; simpl.
  - rewrite app_nil_r. reflexivity.
  - rewrite IH, filter_cons. unfold keep_step.
    destruct (decide (name it ∈ seen)) as [Hin|Hout].
    + rewrite bool_decide_eq_true_2 by exact Hin.
      rewrite decide_False by (intros H; exact (H Hin)). reflexivity.
    + rewrite bool_decide_eq_false_2 by exact Hout.
      rewrite decide_True by exact Hout.
      rewrite <- app_assoc. reflexivity.
Qed.

Lemma first_occurrences_elem l x : x ∈ first_occurrences l <-> x ∈ l.
Proof.
  induction l as [|y t IH]; simpl; [reflexivity|].
  rewrite !elem_of_cons, list_elem_of_filter, IH.
  destruct (decide (x = y)); tauto.
Qed.

Lemma first_occurrences_NoDup l : NoDup (first_occurrences l).
Proof.
  induction l as [|y t IH]; simpl; [constructor|].
  constructor.
  - rewrite list_elem_of_filter. tauto.
  - apply NoDup_filter. exact IH.
Qed.

Lemma filter_all {A} (P : A -> Prop) `{forall x, Decision (P x)} (l : list A) :
  (forall x, P x) -> filter P l = l.
Proof.
  intros HP. induction l as [|a l IH]; [reflexivity|].
  rewrite filter_cons_True by apply HP. rewrite IH. reflexivity.
Qed.

(** The list that [on_import] builds. *)
Lemma reorder_by_names_eq names its :
  reorder_by_names names its
  = List.map (imported (suffix_map its)) (first_occurrences (texts names))
    ++ filter (fun it => name it ∉ texts names) its.
Proof.
  unfold reorder_by_names. rewrite import_loop, keep_loop. simpl.
  f_equal.
  - f_equal. apply filter_all. intros n. set_solver.
  - apply list_filter_iff. intros it. set_solver.
Qed.

End Importing.

(** C4. [on_import] with a list of names: the new list starts with one
    record per distinct name, in the order of the first occurrences in the
    list (later occurrences are ignored); such a record has the suffix of
    the current record of that name (of the last one, should several
    current records have the name) and an empty suffix when no current
    record has the name; after those come the current records whose name
    is not in the list, in their original order. *)
Theorem on_import_spec (names : list json) (d : OrderDialog) :
  exists head,
    items (on_import (JArr names) d)
    = head ++ filter (fun it => name it ∉ texts names) (items d)
    /\ List.map name head = first_occurrences (texts names)
    /\ Forall (fun h =>
         (name h ∉ List.map name (items d) -> suffix h = [])
         /\ (forall pre it post,
               items d = pre ++ it :: post ->
               name it = name h -> name h ∉ List.map name post ->
               suffix h = suffix it)) head.
Proof.
  exists (List.map (imported (suffix_map (items d)))
            (first_occurrences (texts names))).
  split; [|split].
  - simpl. rewrite refresh_items. apply reorder_by_names_eq.
  - rewrite List.map_map. simpl. apply List.map_id.
  - apply Forall_forall. intros h Hh.
    apply list_elem_of_In, in_map_iff in Hh. destruct Hh as (n & <- & _).
    simpl. split.
    + intros Hn. rewrite suffix_map_absent by exact Hn. reflexivity.
    + intros pre it post E En Hpost. rewrite E, <- En.
      rewrite suffix_map_last by (rewrite En; exact Hpost). reflexivity.
Qed.

(** The two examples of the specification. *)
Example reorder_known :
  reorder_by_names [JStr (codes "B"); JStr (codes "A")]
    [mkFieldItem (codes "A") (codes "visible"); mkFieldItem (codes "B") []]
  = [mkFieldItem (codes "B") []; mkFieldItem (codes "A") (codes "visible")].
Proof. vm_compute. reflexivity. Qed.

Example reorder_unknown :
  reorder_by_names [JStr (codes "C")]
    [mkFieldItem (codes "A") []; mkFieldItem (codes "B") []]
  = [mkFieldItem (codes "C") []; mkFieldItem (codes "A") [];
     mkFieldItem (codes "B") []].
Proof. vm_compute. reflexivity. Qed.

(** ** The selection of the list box stays a position of the list *)

Lemma lb_ok_init its : lb_ok (dialog_init its).
Proof. left. reflexivity. Qed.

(** An event that returns raises no exception in a dialog whose
    selection is none or a position of the list, and the selection stays
    so. *)
Lemma handle_lb_ok e d :
  lb_ok d -> returns e -> exists d', handle e d = Ok d' /\ lb_ok d'.
Proof.
  intros Hok Hret. destruct e as [i| | | |entry|f]; simpl.
  - destruct (i <? length (items d))%nat eqn:E.
    + eexists. split; [reflexivity|]. right. simpl.
      apply Nat.ltb_lt in E. lia.
    + eauto.
  - destruct (move_cases Up d Hok)
      as [(_ & _ & d' & Hd' & Hok' & _) | (_ & Hd)]; eauto.
  - destruct (move_cases Down d Hok)
      as [(_ & _ & d' & Hd' & Hok' & _) | (_ & Hd)]; eauto.
  - unfold on_del. destruct (lb_sel d =? NOT_FOUND)%Z eqn:E; [eauto|].
    destruct Hok as [Hn|Hr]; [apply Z.eqb_neq in E; contradiction|].
    unfold delitem. rewrite py_pos_in_range by exact Hr. cbn [bind].
    eexists. split; [reflexivity | apply refresh_lb_ok].
  - eexists. split; [reflexivity|]. unfold on_add.
    destruct entry as [v|]; [|exact Hok].
    destruct (_ && _); [apply refresh_lb_ok | exact Hok].
  - destruct f as [| | |data]; simpl in Hret; try contradiction; [eauto|].
    destruct Hret as [l ->]. eexists. split; [reflexivity|].
    unfold on_import.
    destruct (default JNull (dict_get (codes "fields") l)); try exact Hok.
    apply refresh_lb_ok.
Qed.

(** The selection stays none or a position of the list through every
    event that returns. *)
Lemma handle_keeps_lb_ok e d d' :
  lb_ok d -> handle e d = Ok d' -> lb_ok d'.
Proof.
  intros Hok He.
  assert (Hret : returns e).
  { destruct e as [i| | | |entry|f]; simpl; auto.
    destruct f as [| | |data]; simpl in He |- *; try discriminate; auto.
    destruct data; try discriminate. eauto. }
  destruct (handle_lb_ok e d Hok Hret) as (d'' & He' & Hok').
  rewrite He in He'. injection He' as ->. exact Hok'.
Qed.

(** Outside of what the list box reports, [_move_up] is not a no-op: an
    index past the end raises [IndexError]. *)
Example move_up_past_end :
  _move_up (mkDialog [mkFieldItem (codes "A") []] 5) = Raise IndexError.
Proof. reflexivity. Qed.

(** The end-to-end example of the specification: the example text is
    parsed, the first line is selected and moved down, and the list is
    written. *)
Example end_to_end :
  (its <- parse_field_names_sexpr (Some example_text) ;;
   d <- handle (Click 0) (dialog_init its) ;;
   d' <- handle EvDown d ;;
   Ok (build_field_names_sexpr (items d')))
  = Ok (codes "(templatefields(field (name " ++ [QUOTE] ++ codes "URL"
        ++ [QUOTE] ++ codes ") url)(field (name " ++ [QUOTE] ++ codes "MFR"
        ++ [QUOTE] ++ codes ") visible))").
Proof. vm_compute. reflexivity. Qed.

(** ** The text functions on examples *)

Example replace_no_overlap :
  replace (codes "aa") (codes "b") (codes "aaa") = codes "ba".
Proof. reflexivity. Qed.

Example replace_empty_pattern :
  replace [] (codes "-") (codes "abc") = codes "-a-b-c-".
Proof. reflexivity. Qed.

Example strip_both_ends :
  strip (9 :: codes "  visible  url " ++ [160; 10]) = codes "visible  url".
Proof. reflexivity. Qed.

Example escape_quote_backslash :
  _escape (codes "a\" ++ [QUOTE] ++ codes "b")
  = codes "a\\\" ++ [QUOTE] ++ codes "b".
Proof. reflexivity. Qed.

(** ** More on the codec *)

Section CodecMore.

Lemma replace_scan_absent old new a s :
  ~ In a s -> replace_scan (a :: old) new 0 s = s.
Proof.
  induction s as [|c t IH]; intros Hno; simpl; [reflexivity|].
  replace (a =? c) with false
    by (symmetry; apply N.eqb_neq; intros ->; apply Hno; left; reflexivity).
  simpl. rewrite IH; [reflexivity|].
  intros H. apply Hno. right. exact H.
Qed.

Lemma with_suffix_inside_key it1 it2 :
  key it1 = key it2 -> with_suffix_inside it1 = with_suffix_inside it2.
Proof.
  unfold key. intros [= Hn Hs]. unfold with_suffix_inside.
  rewrite Hn, Hs. reflexivity.
Qed.

Lemma build_key S1 S2 :
  List.map key S1 = List.map key S2 ->
  build_field_names_sexpr S1 = build_field_names_sexpr S2.
Proof.
  intros H. unfold build_field_names_sexpr. do 3 f_equal.
  revert S2 H. induction S1 as [|a S1 IH]; intros [|b S2] H;
    try discriminate; [reflexivity|].
  rewrite !List.map_cons in *.
  assert (Hab : key a = key b) by congruence.
  assert (H' : List.map key S1 = List.map key S2) by congruence.
  rewrite (with_suffix_inside_key _ _ Hab), (IH _ H'). reflexivity.
Qed.

Lemma clean_normalize its : clean its -> clean (List.map normalize its).
Proof.
  unfold clean. intros H. apply Forall_forall. intros it Hit.
  apply list_elem_of_In, in_map_iff in Hit. destruct Hit as (x & <- & Hx).
  rewrite Forall_forall in H. intros Hin. simpl in Hin.
  apply strip_In in Hin. exact (H x (proj2 (list_elem_of_In _ _) Hx) Hin).
Qed.

Lemma normalize_idem its :
  List.map normalize (List.map normalize its) = List.map normalize its.
Proof.
  rewrite List.map_map. apply List.map_ext. intros it.
  unfold normalize. simpl. rewrite strip_idem. reflexivity.
Qed.


End CodecMore.

(** X1. A name without double quote and without backslash is written as
    it is: [_escape] and [_unescape] leave it unchanged. *)
Theorem escape_plain (s : list N) :
  ~ In QUOTE s -> ~ In BACKSLASH s ->
  _escape s = s /\ _unescape s = s.
Proof.
  intros Hq Hb. split.
  - induction s as [|c t IH]; [reflexivity|].
    rewrite escape_cons, IH.
    + unfold escape_char.
      replace (c =? BACKSLASH) with false
        by (symmetry; apply N.eqb_neq; intros ->; apply Hb; left; reflexivity).
      replace (c =? QUOTE) with false
        by (symmetry; apply N.eqb_neq; intros ->; apply Hq; left; reflexivity).
      reflexivity.
    + intros H. apply Hq. right. exact H.
    + intros H. apply Hb. right. exact H.
  - unfold _unescape, replace.
    rewrite (replace_scan_absent [QUOTE] [QUOTE] BACKSLASH s Hb).
    apply replace_scan_absent. exact Hb.
Qed.

Lemma escape_plain_witness :
  _escape (codes "MANUFACTURER") = codes "MANUFACTURER"
  /\ _unescape (codes "MANUFACTURER") = codes "MANUFACTURER".
Proof.
  apply (escape_plain (codes "MANUFACTURER"));
    vm_compute; intuition discriminate.
Defined.

(** X2. [_escape] is injective: two different names are never written as
    the same text. *)
Theorem escape_injective (a b : list N) : _escape a = _escape b -> a = b.
Proof.
  intros H. rewrite <- (unescape_escape_id a), <- (unescape_escape_id b), H.
  reflexivity.
Qed.

Lemma escape_injective_witness :
  codes "a" ++ [QUOTE] = codes "a" ++ [QUOTE].
Proof.
  apply (escape_injective (codes "a" ++ [QUOTE]) (codes "a" ++ [QUOTE])).
  reflexivity.
Defined.

(** X3. For two lists without closing parenthesis in their suffixes, the
    serializations are the same text exactly when the lists have the same
    (name, stripped suffix) pairs in the same order. *)
Theorem build_eq_iff_key (S1 S2 : list FieldItem) :
  clean S1 -> clean S2 ->
  (build_field_names_sexpr S1 = build_field_names_sexpr S2
   <-> List.map key S1 = List.map key S2).
Proof.
  intros H1 H2. split; [|apply build_key].
  intros E.
  pose proof (parse_build S1 H1) as P1. pose proof (parse_build S2 H2) as P2.
  rewrite E, P2 in P1. injection P1 as P1.
  rewrite <- (map_key_normalize S1), <- (map_key_normalize S2), P1.
  reflexivity.
Qed.

Lemma build_eq_iff_key_witness :
  build_field_names_sexpr [mkFieldItem (codes "URL") (codes " url ")]
  = build_field_names_sexpr [mkFieldItem (codes "URL") (codes "url")].
Proof.
  apply (build_eq_iff_key [mkFieldItem (codes "URL") (codes " url ")]
           [mkFieldItem (codes "URL") (codes "url")]).
  - repeat constructor. vm_compute. intuition discriminate.
  - repeat constructor. vm_compute. intuition discriminate.
  - reflexivity.
Defined.

(** X4. Once a list without closing parenthesis in its suffixes has been
    written and read, writing and reading again changes nothing: the list
    read is written as the same text, and that text is read as the same
    list. *)
Theorem resave_stable (S P : list FieldItem) :
  clean S ->
  parse_field_names_sexpr (Some (build_field_names_sexpr S)) = Ok P ->
  build_field_names_sexpr P = build_field_names_sexpr S
  /\ parse_field_names_sexpr (Some (build_field_names_sexpr P)) = Ok P.
Proof.
  intros Hc HP. rewrite (parse_build S Hc) in HP. injection HP as <-.
  split.
  - apply build_key, map_key_normalize.
  - rewrite (parse_build _ (clean_normalize _ Hc)), normalize_idem.
    reflexivity.
Qed.

Lemma resave_stable_witness :
  let S := [mkFieldItem (codes "MFR") (codes "  visible ")] in
  let P := [mkFieldItem (codes "MFR") (codes "visible")] in
  build_field_names_sexpr P = build_field_names_sexpr S
  /\ parse_field_names_sexpr (Some (build_field_names_sexpr P)) = Ok P.
Proof.
  cbv zeta.
  apply (resave_stable [mkFieldItem (codes "MFR") (codes "  visible ")]
           [mkFieldItem (codes "MFR") (codes "visible")]).
  - repeat constructor. vm_compute. intuition discriminate.
  - vm_compute. reflexivity.
Defined.



(** X6. The text that [with_suffix_inside] writes for a record whose
    suffix has no closing parenthesis is a word of [FIELD_RE]: the
    serializer writes only records that the parser recognizes, from the
    first to the last character. *)
Theorem with_suffix_inside_in_lang (it : FieldItem) :
  ~ In RPAREN (suffix it) -> in_lang FIELD_RE (with_suffix_inside it).
Proof.
  intros Hit.
  assert (M : match_at FIELD_RE (with_suffix_inside it)
              = Some ([], record_groups it)).
  { rewrite with_suffix_inside_eq.
    repeat (rewrite <- ?app_assoc; simpl app).
    apply match_at_record; [apply stops_strip|].
    apply Forall_forall. intros a Ha ->. apply Hit.
    apply strip_In, list_elem_of_In. exact Ha. }
  apply match_at_sound in M. destruct M as (p & E & M).
  rewrite app_nil_r in E. subst p. exists (record_groups it). exact M.
Qed.

Lemma with_suffix_inside_in_lang_witness :
  in_lang FIELD_RE
    (with_suffix_inside (mkFieldItem (codes "ZZZ") (codes " visible url"))).
Proof.
  apply (with_suffix_inside_in_lang
           (mkFieldItem (codes "ZZZ") (codes " visible url"))).
  vm_compute. intuition discriminate.
Defined.

(** ** Reading and writing the configuration *)

Section Config.

Lemma dict_get_set_eq k v l : dict_get k (dict_set k v l) = Some v.
Proof.
  induction l as [|[k' v'] l IH]; simpl.
  - rewrite bool_decide_eq_true_2 by reflexivity. reflexivity.
  - destruct (decide (k' = k)) as [E|E].
    + rewrite (bool_decide_eq_true_2 _ E). simpl.
      rewrite bool_decide_eq_true_2 by reflexivity. reflexivity.
    + rewrite (bool_decide_eq_false_2 _ E). simpl.
      rewrite (bool_decide_eq_false_2 _ E). exact IH.
Qed.

Lemma dict_get_set_ne k k' v l :
  k' <> k -> dict_get k' (dict_set k v l) = dict_get k' l.
Proof.
  intros Hne. induction l as [|[k0 v0] l IH]; simpl.
  - rewrite bool_decide_eq_false_2 by congruence. reflexivity.
  - destruct (decide (k0 = k)) as [E|E].
    + rewrite (bool_decide_eq_true_2 _ E). simpl. subst k0.
      rewrite !bool_decide_eq_false_2 by congruence. reflexivity.
    + rewrite (bool_decide_eq_false_2 _ E). simpl.
      destruct (bool_decide (k0 = k')); [reflexivity | exact IH].
Qed.

End Config.

(** X7. A configuration without the key drawing, or whose drawing has no
    key field_names or has a false value there ([None], [False], zero, an
    empty text, list or dict), is read without exception and gives the
    empty list of fields. *)
Theorem load_absent (dl : list (list N * json)) :
  let drawing := default (JObj []) (dict_get (codes "drawing") dl) in
  (dict_get (codes "drawing") dl = None
   \/ exists fl, drawing = JObj fl
        /\ truthy (default (JStr []) (dict_get (codes "field_names") fl))
           = false) ->
  load_drawing_field_names (JObj dl) = Done (JObj dl, drawing, []).
Proof.
  cbv zeta. intros [H|(fl & Hd & Hf)]; unfold load_drawing_field_names.
  - rewrite H. reflexivity.
  - rewrite Hd.
    destruct (default (JStr []) (dict_get (codes "field_names") fl))
      as [|b|z|s|l|l] eqn:E; simpl in Hf |- *.
    + reflexivity.
    + rewrite Hf. reflexivity.
    + rewrite Hf. reflexivity.
    + apply negb_false_iff, bool_decide_eq_true_1 in Hf. subst s. reflexivity.
    + rewrite Hf. reflexivity.
    + destruct l; [reflexivity | discriminate].
Qed.

Lemma load_absent_witness :
  load_drawing_field_names (JObj [(codes "appearance", JObj [])])
  = Done (JObj [(codes "appearance", JObj [])], JObj [], []).
Proof.
  apply (load_absent [(codes "appearance", JObj [])]).
  left. reflexivity.
Defined.

(** X8. The exceptions of the reading.  A configuration that is no dict,
    or whose drawing is no dict, makes it raise [AttributeError]; a value
    of field_names that is true and no text (a number other than zero,
    [True], a list or dict that is not empty) makes it raise
    [TypeError]. *)
Theorem load_raises (data : json) :
  ((forall dl, data <> JObj dl) \/
   (exists dl d, data = JObj dl
      /\ dict_get (codes "drawing") dl = Some d /\ forall fl, d <> JObj fl) ->
   load_drawing_field_names data = Fails (Builtin AttributeError))
  /\ (forall dl fl j,
        data = JObj dl ->
        default (JObj []) (dict_get (codes "drawing") dl) = JObj fl ->
        dict_get (codes "field_names") fl = Some j ->
        truthy j = true -> (forall s, j <> JStr s) ->
        load_drawing_field_names data = Fails TypeError).
Proof.
  split.
  - intros [H|(dl & d & -> & Hd & Hno)]; unfold load_drawing_field_names.
    + destruct data; try reflexivity. exfalso. exact (H _ eq_refl).
    + rewrite Hd. simpl.
      destruct d; try reflexivity. exfalso. exact (Hno _ eq_refl).
  - intros dl fl j -> Hd Hj Ht Hs. unfold load_drawing_field_names.
    rewrite Hd, Hj. cbn [default from_option id].
    destruct j as [|b|z|s|l|l]; simpl in Ht |- *; try discriminate.
    + rewrite Ht. reflexivity.
    + rewrite Ht. reflexivity.
    + exfalso. exact (Hs s eq_refl).
    + rewrite Ht. reflexivity.
    + destruct l; [discriminate | reflexivity].
Qed.

Lemma load_raises_witness :
  load_drawing_field_names (JObj [(codes "drawing", JNull)])
  = Fails (Builtin AttributeError)
  /\ load_drawing_field_names
       (JObj [(codes "drawing", JObj [(codes "field_names", JNum 7)])])
     = Fails TypeError.
Proof.
  split.
  - apply (load_raises (JObj [(codes "drawing", JNull)])).
    right. exists [(codes "drawing", JNull)], JNull.
    split; [reflexivity|]. split; [reflexivity|]. intros fl. discriminate.
  - apply (proj2 (load_raises
             (JObj [(codes "drawing", JObj [(codes "field_names", JNum 7)])]))
             [(codes "drawing", JObj [(codes "field_names", JNum 7)])]
             [(codes "field_names", JNum 7)] (JNum 7));
      try reflexivity.
    intros s. discriminate.
Defined.

(** X11. A configuration whose drawing is a dict and whose field list is
    a text is read without exception, whatever the text; the items are
    what [parse_field_names_sexpr] reads in the text, and the
    configuration and its drawing are returned as they are. *)
Theorem load_any_text (dl fl : list (list N * json)) (s : list N) :
  dict_get (codes "drawing") dl = Some (JObj fl) ->
  dict_get (codes "field_names") fl = Some (JStr s) ->
  exists its,
    parse_field_names_sexpr (Some s) = Ok its
    /\ load_drawing_field_names (JObj dl) = Done (JObj dl, JObj fl, its).
Proof.
  intros Hd Hf. destruct (parse_ok (Some s)) as (its & Hp & _).
  exists its. split; [exact Hp|].
  unfold load_drawing_field_names. rewrite Hd. simpl. rewrite Hf. simpl.
  rewrite Hp. reflexivity.
Qed.

Lemma load_any_text_witness :
  exists its,
    parse_field_names_sexpr (Some (codes "(((")) = Ok its
    /\ load_drawing_field_names
         (JObj [(codes "drawing", JObj [(codes "field_names", JStr (codes "((("))])])
       = Done (JObj [(codes "drawing",
                      JObj [(codes "field_names", JStr (codes "((("))])],
               JObj [(codes "field_names", JStr (codes "((("))], its).
Proof.
  apply (load_any_text
           [(codes "drawing", JObj [(codes "field_names", JStr (codes "((("))])]
           [(codes "field_names", JStr (codes "((("))] (codes "((("));
    reflexivity.
Defined.

(** X9. Writing and reading back: after a successful reading of [data],
    when the writing of a list [its] without closing parenthesis in its
    suffixes returns (the file could be written and every text could be
    encoded), the configuration that the file holds is read without
    exception, and the list read is [its] with every suffix stripped. *)
Theorem save_load (writable : bool) (data d0 drawing data' : json)
    (its0 its : list FieldItem) :
  load_drawing_field_names data = Done (d0, drawing, its0) ->
  clean its ->
  save_drawing_field_names writable d0 drawing its = Done data' ->
  exists drawing',
    load_drawing_field_names data'
    = Done (data', drawing', List.map normalize its).
Proof.
  intros Hl Hc Hs. unfold load_drawing_field_names in Hl.
  destruct data as [| | | | |dl]; try discriminate.
  destruct (default (JObj []) (dict_get (codes "drawing") dl))
    as [| | | | |fl] eqn:Ed; try discriminate.
  destruct (scanned _); [|discriminate].
  destruct (parse_field_names_sexpr _); [|discriminate].
  injection Hl as <- <- <-.
  unfold save_drawing_field_names, dump_file in Hs.
  destruct (negb writable); [discriminate|].
  destruct (json_encodable _); [|discriminate].
  injection Hs as <-.
  eexists. unfold load_drawing_field_names.
  rewrite dict_get_set_eq. cbn [default from_option id].
  rewrite dict_get_set_eq. cbn [default from_option id scanned].
  rewrite (parse_build its Hc). reflexivity.
Qed.

Lemma save_load_witness :
  exists drawing',
    load_drawing_field_names
      (JObj [(codes "drawing",
              JObj [(codes "field_names",
                     JStr (build_field_names_sexpr
                             [mkFieldItem (codes "MFR") (codes " visible ")]))])])
    = Done (JObj [(codes "drawing",
              JObj [(codes "field_names",
                     JStr (build_field_names_sexpr
                             [mkFieldItem (codes "MFR") (codes " visible ")]))])],
            drawing', [mkFieldItem (codes "MFR") (codes "visible")]).
Proof.
  apply (save_load true (JObj []) (JObj []) (JObj [])
           (JObj [(codes "drawing",
              JObj [(codes "field_names",
                     JStr (build_field_names_sexpr
                             [mkFieldItem (codes "MFR") (codes " visible ")]))])])
           [] [mkFieldItem (codes "MFR") (codes " visible ")]).
  - reflexivity.
  - repeat constructor. vm_compute. intuition discriminate.
  - vm_compute. reflexivity.
Defined.

(** X10. A writing that returns changes nothing but the field list: in
    the configuration that the file then holds, every key other than
    drawing has the value it had, and in its drawing every key other than
    field_names has the value it had in the drawing that was read; the
    field list is the serialized list. *)
Theorem save_keeps_other_keys (writable : bool) (data drawing data' : json)
    (its : list FieldItem) :
  save_drawing_field_names writable data drawing its = Done data' ->
  exists dl fl dl' fl',
    data = JObj dl /\ drawing = JObj fl /\ data' = JObj dl'
    /\ dict_get (codes "drawing") dl' = Some (JObj fl')
    /\ dict_get (codes "field_names") fl'
       = Some (JStr (build_field_names_sexpr its))
    /\ (forall k, k <> codes "drawing" -> dict_get k dl' = dict_get k dl)
    /\ (forall k, k <> codes "field_names" -> dict_get k fl' = dict_get k fl).
Proof.
  unfold save_drawing_field_names, dump_file. intros Hs.
  destruct drawing as [| | | | |fl]; try discriminate.
  destruct data as [| | | | |dl]; try discriminate.
  destruct (negb writable); [discriminate|].
  destruct (json_encodable _); [|discriminate].
  injection Hs as <-.
  exists dl, fl. eexists. eexists.
  split; [reflexivity|]. split; [reflexivity|]. split; [reflexivity|].
  split; [apply dict_get_set_eq|].
  split; [apply dict_get_set_eq|].
  split; intros k Hk; apply dict_get_set_ne; exact Hk.
Qed.

Lemma save_keeps_other_keys_witness :
  exists dl fl dl' fl',
    JObj [(codes "appearance", JNum 1); (codes "drawing", JObj [])] = JObj dl
    /\ JObj [(codes "field_names", JStr (codes "old")); (codes "grid", JNum 2)]
       = JObj fl
    /\ JObj [(codes "appearance", JNum 1);
             (codes "drawing",
              JObj [(codes "field_names",
                     JStr (build_field_names_sexpr [mkFieldItem (codes "A") []]));
                    (codes "grid", JNum 2)])] = JObj dl'
    /\ dict_get (codes "drawing") dl' = Some (JObj fl')
    /\ dict_get (codes "field_names") fl'
       = Some (JStr (build_field_names_sexpr [mkFieldItem (codes "A") []]))
    /\ (forall k, k <> codes "drawing" -> dict_get k dl' = dict_get k dl)
    /\ (forall k, k <> codes "field_names" -> dict_get k fl' = dict_get k fl).
Proof.
  apply (save_keeps_other_keys true
           (JObj [(codes "appearance", JNum 1); (codes "drawing", JObj [])])
           (JObj [(codes "field_names", JStr (codes "old"));
                  (codes "grid", JNum 2)])).
  vm_compute. reflexivity.
Defined.

(** ** More on the dialog *)

Section DialogMore.

Lemma refresh_in_range i its :
  in_range (length its) i -> refresh (Some i) its = mkDialog its i.
Proof.
  unfold in_range, refresh. intros H.
  replace ((0 <=? i) && (i <? Z.of_nat (length its)))%Z with true;
    [reflexivity|].
  symmetry. apply andb_true_intro.
  split; [apply Z.leb_le | apply Z.ltb_lt]; lia.
Qed.

(** The dialog after a move between two positions of the list. *)
Lemma move_explicit dir d a b :
  in_range (length (items d)) (lb_sel d) ->
  in_range (length (items d)) (neighbour dir (lb_sel d)) ->
  items d !! Z.to_nat (lb_sel d) = Some a ->
  items d !! Z.to_nat (neighbour dir (lb_sel d)) = Some b ->
  move dir d
  = Ok (mkDialog (<[Z.to_nat (lb_sel d) := b]>
                    (<[Z.to_nat (neighbour dir (lb_sel d)) := a]> (items d)))
          (neighbour dir (lb_sel d))).
Proof.
  unfold in_range. intros Hi Hj Ha Hb.
  destruct (getitem_in_range (items d) _ Hi) as (a' & Ha' & Ga).
  destruct (getitem_in_range (items d) _ Hj) as (b' & Hb' & Gb).
  assert (a' = a) by congruence. assert (b' = b) by congruence. subst a' b'.
  destruct dir; simpl in *.
  - unfold _move_up.
    replace ((lb_sel d =? NOT_FOUND) || (lb_sel d =? 0))%Z with false
      by (symmetry; apply orb_false_intro; apply Z.eqb_neq; unfold NOT_FOUND; lia).
    rewrite Ga, Gb. cbn [bind].
    rewrite setitem_in_range by exact Hj. cbn [bind].
    rewrite setitem_in_range by (rewrite length_insert; exact Hi). cbn [bind].
    rewrite refresh_in_range; [reflexivity|].
    unfold in_range. rewrite !length_insert. exact Hj.
  - unfold _move_down.
    replace ((lb_sel d =? NOT_FOUND)
             || (Z.of_nat (length (items d)) - 1 <=? lb_sel d))%Z with false
      by (symmetry; apply orb_false_intro;
          [apply Z.eqb_neq; unfold NOT_FOUND | apply Z.leb_gt]; lia).
    rewrite Ga, Gb. cbn [bind].
    rewrite setitem_in_range by exact Hj. cbn [bind].
    rewrite setitem_in_range by (rewrite length_insert; exact Hi). cbn [bind].
    rewrite refresh_in_range; [reflexivity|].
    unfold in_range. rewrite !length_insert. exact Hj.
Qed.

(** Exchanging two items of a list rearranges it. *)
Lemma swap_Permutation {A} (l : list A) i j a b :
  i <> j -> l !! i = Some a -> l !! j = Some b ->
  Permutation (<[i := b]> (<[j := a]> l)) l.
Proof.
  revert i j. induction l as [|x l IH]; intros i j Hij Hi Hj; [discriminate|].
  destruct i as [|i], j as [|j]; simpl in *; try congruence.
  - injection Hi as ->.
    rewrite (delete_Permutation l j b Hj) at 2.
    rewrite (delete_Permutation (<[j := a]> l) j a)
      by (apply list_lookup_insert_eq; eapply lookup_lt_Some; exact Hj).
    rewrite perm_swap. do 2 apply perm_skip.
    rewrite !delete_take_drop, take_insert_ge, drop_insert_lt by lia.
    reflexivity.
  - injection Hj as ->.
    rewrite (delete_Permutation l i a Hi) at 2.
    rewrite (delete_Permutation (<[i := b]> l) i b)
      by (apply list_lookup_insert_eq; eapply lookup_lt_Some; exact Hi).
    rewrite perm_swap. do 2 apply perm_skip.
    rewrite !delete_take_drop, take_insert_ge, drop_insert_lt by lia.
    reflexivity.
  - apply perm_skip. apply IH; [congruence | assumption | assumption].
Qed.

Lemma move_result dir d d' :
  lb_ok d -> move dir d = Ok d' ->
  d' = d
  \/ exists i j a b, i <> j /\ items d !! i = Some a /\ items d !! j = Some b
       /\ items d' = <[i := b]> (<[j := a]> (items d)).
Proof.
  intros Hok Hm.
  destruct (move_cases dir d Hok)
    as [(Hi & Hj & _) | (_ & Hd)]; [|left; congruence].
  right.
  destruct (lookup_lt_is_Some_2 (items d) (Z.to_nat (lb_sel d))) as [a Ha];
    [unfold in_range in Hi; lia|].
  destruct (lookup_lt_is_Some_2 (items d)
              (Z.to_nat (neighbour dir (lb_sel d)))) as [b Hb];
    [unfold in_range in Hj; lia|].
  rewrite (move_explicit dir d a b Hi Hj Ha Hb) in Hm. injection Hm as <-.
  exists (Z.to_nat (lb_sel d)), (Z.to_nat (neighbour dir (lb_sel d))), a, b.
  repeat split; try assumption.
  unfold in_range in *. destruct dir; simpl in *; lia.
Qed.

Lemma on_del_explicit d :
  in_range (length (items d)) (lb_sel d) ->
  on_del d
  = Ok (refresh
          (Some (Z.min (lb_sel d) (Z.of_nat (length (items d)) - 2)))
          (delete (Z.to_nat (lb_sel d)) (items d))).
Proof.
  unfold in_range. intros Hi. unfold on_del.
  replace (lb_sel d =? NOT_FOUND)%Z with false
    by (symmetry; apply Z.eqb_neq; unfold NOT_FOUND; lia).
  unfold delitem. rewrite py_pos_in_range by exact Hi. cbn [bind].
  rewrite length_delete
    by (apply lookup_lt_is_Some_2; lia).
  do 3 f_equal. lia.
Qed.

Lemma suffix_map_In its n s :
  suffix_map its !! n = Some s ->
  exists it, In it its /\ name it = n /\ suffix it = s.
Proof.
  unfold suffix_map.
  assert (H : forall (m : gmap (list N) (list N)),
            foldl (fun m it => <[name it := suffix it]> m) m its !! n = Some s ->
            m !! n = Some s
            \/ exists it, In it its /\ name it = n /\ suffix it = s).
  { induction its as [|it its IH]; intros m Hm; simpl in Hm; [left; exact Hm|].
    apply IH in Hm. destruct Hm as [Hm|(x & Hx & Hn & Hs)].
    - destruct (decide (name it = n)) as [E|E].
      + rewrite E, lookup_insert_eq in Hm. injection Hm as <-.
        right. exists it. repeat split; [left; reflexivity | exact E].
      + rewrite lookup_insert_ne in Hm by exact E. left. exact Hm.
    - right. exists x. repeat split; [right; exact Hx | exact Hn | exact Hs]. }
  intros Hm. apply H in Hm. destruct Hm as [Hm|Hm]; [|exact Hm].
  rewrite lookup_empty in Hm. discriminate.
Qed.

Lemma names_reorder names its :
  List.map name (reorder_by_names names its)
  = first_occurrences (texts names)
    ++ List.map name (filter (fun it => name it ∉ texts names) its).
Proof.
  rewrite reorder_by_names_eq, List.map_app, List.map_map. simpl.
  rewrite List.map_id. reflexivity.
Qed.

Lemma NoDup_map_filter (P : FieldItem -> Prop) `{forall x, Decision (P x)} its :
  NoDup (List.map name its) -> NoDup (List.map name (filter P its)).
Proof.
  induction its as [|it its IH]; intros Hn; [constructor|].
  simpl in Hn. apply NoDup_cons in Hn. destruct Hn as [Hit Hn].
  rewrite filter_cons. destruct (decide (P it)); [|apply IH; exact Hn].
  simpl. apply NoDup_cons. split; [|apply IH; exact Hn].
  intros Hin. apply Hit. apply list_elem_of_In in Hin.
  apply in_map_iff in Hin. destruct Hin as (x & Hx & Hin).
  apply list_elem_of_In. apply in_map_iff. exists x. split; [exact Hx|].
  apply list_elem_of_In in Hin. apply list_elem_of_filter in Hin.
  apply list_elem_of_In. tauto.
Qed.

Lemma on_add_fresh v d :
  ((strip v <> [] /\ Forall (fun it => name it <> strip v) (items d))
   /\ items (on_add (Some v) d)
      = items d ++ [mkFieldItem (strip v) []])
  \/ (~ (strip v <> [] /\ Forall (fun it => name it <> strip v) (items d))
      /\ on_add (Some v) d = d).
Proof.
  unfold on_add.
  destruct (decide (strip v = [])) as [E|E].
  - right. rewrite bool_decide_eq_true_2 by exact E. simpl.
    split; [intros [H _]; exact (H E) | reflexivity].
  - rewrite bool_decide_eq_false_2 by exact E. simpl.
    destruct (forallb _ (items d)) eqn:F.
    + left. rewrite refresh_items. split; [|reflexivity].
      split; [exact E|].
      apply Forall_forall. intros it Hit.
      rewrite forallb_forall in F. apply list_elem_of_In in Hit.
      specialize (F it Hit). apply negb_true_iff in F.
      apply bool_decide_eq_false_1 in F. exact F.
    + right. split; [|reflexivity].
      intros [_ H].
      assert (F' : forallb
                (fun it => negb (bool_decide (name it = strip v))) (items d)
              = true).
      { apply forallb_forall. intros it Hit. apply negb_true_iff.
        apply bool_decide_eq_false_2.
        rewrite Forall_forall in H. apply H, list_elem_of_In. exact Hit. }
      congruence.
Qed.

Lemma elem_map_delete i (its : list FieldItem) x :
  x ∈ List.map name (delete i its) -> x ∈ List.map name its.
Proof.
  revert i. induction its as [|it its IH]; intros i H; [destruct i; exact H|].
  destruct i as [|i]; simpl in *.
  - apply elem_of_cons. right. exact H.
  - apply elem_of_cons in H. apply elem_of_cons.
    destruct H as [H|H]; [left; exact H | right; exact (IH i H)].
Qed.

Lemma NoDup_map_delete i (its : list FieldItem) :
  NoDup (List.map name its) -> NoDup (List.map name (delete i its)).
Proof.
  revert i. induction its as [|it its IH]; intros i H; [destruct i; exact H|].
  simpl in H. apply NoDup_cons in H. destruct H as [Hit H].
  destruct i as [|i]; simpl; [exact H|].
  apply NoDup_cons. split; [|apply IH; exact H].
  intros Hin. apply Hit. exact (elem_map_delete i its _ Hin).
Qed.

(** Every event keeps the names different from each other. *)
Lemma handle_unique e d d' :
  lb_ok d -> unique_names (items d) -> handle e d = Ok d' ->
  unique_names (items d').
Proof.
  unfold unique_names. intros Hok Hu He.
  destruct e as [i| | | |entry|names]; simpl in He.
  - destruct (i <? length (items d))%nat; injection He as <-; exact Hu.
  - destruct (move_result Up d d' Hok He)
      as [->|(i & j & a & b & Hij & Ha & Hb & ->)]; [exact Hu|].
    rewrite (Permutation_map name (swap_Permutation _ _ _ _ _ Hij Ha Hb)).
    exact Hu.
  - destruct (move_result Down d d' Hok He)
      as [->|(i & j & a & b & Hij & Ha & Hb & ->)]; [exact Hu|].
    rewrite (Permutation_map name (swap_Permutation _ _ _ _ _ Hij Ha Hb)).
    exact Hu.
  - destruct Hok as [Hn|Hr].
    + unfold on_del in He. rewrite Hn in He. simpl in He.
      injection He as <-. exact Hu.
    + rewrite (on_del_explicit d Hr) in He. injection He as <-.
      rewrite refresh_items. apply NoDup_map_delete. exact Hu.
  - injection He as <-.
    destruct entry as [v|]; [|exact Hu].
    destruct (on_add_fresh v d) as [(Hf & ->)|(_ & ->)]; [|exact Hu].
    rewrite List.map_app. apply NoDup_app. repeat split; [exact Hu| |].
    + intros x Hx Hx'. simpl in Hx'. apply list_elem_of_singleton in Hx'.
      subst x. destruct Hf as [_ Hf]. rewrite Forall_forall in Hf.
      apply list_elem_of_In, in_map_iff in Hx.
      destruct Hx as (it & Hn & Hit).
      exact (Hf it (proj2 (list_elem_of_In _ _) Hit) Hn).
    + simpl. apply NoDup_singleton.
  - destruct names as [| | |data]; simpl in He; try discriminate;
      [injection He as <-; exact Hu|].
    destruct data as [| | | | |l]; try discriminate. simpl in He.
    injection He as <-.
    destruct (default JNull (dict_get (codes "fields") l)); try exact Hu.
    simpl. rewrite refresh_items, names_reorder.
    apply NoDup_app. repeat split.
    + apply first_occurrences_NoDup.
    + intros x Hx Hx'. apply (proj1 (first_occurrences_elem _ _)) in Hx.
      apply list_elem_of_In, in_map_iff in Hx'.
      destruct Hx' as (it & <- & Hit).
      apply list_elem_of_In, list_elem_of_filter in Hit.
      destruct Hit as [Hno _]. exact (Hno Hx).
    + apply NoDup_map_filter. exact Hu.
Qed.

End DialogMore.

Section Sessions.

(** Every event keeps the suffixes free of closing parentheses. *)
Lemma handle_clean e d d' :
  lb_ok d -> clean (items d) -> handle e d = Ok d' -> clean (items d').
Proof.
  unfold clean. intros Hok Hc He.
  destruct e as [i| | | |entry|names]; simpl in He.
  - destruct (i <? length (items d))%nat; injection He as <-; exact Hc.
  - destruct (move_result Up d d' Hok He)
      as [->|(i & j & a & b & Hij & Ha & Hb & ->)]; [exact Hc|].
    rewrite Forall_lookup in Hc.
    apply Forall_insert; [apply Forall_insert|]; eauto.
    apply Forall_lookup. exact Hc.
  - destruct (move_result Down d d' Hok He)
      as [->|(i & j & a & b & Hij & Ha & Hb & ->)]; [exact Hc|].
    rewrite Forall_lookup in Hc.
    apply Forall_insert; [apply Forall_insert|]; eauto.
    apply Forall_lookup. exact Hc.
  - destruct Hok as [Hn|Hr].
    + unfold on_del in He. rewrite Hn in He. simpl in He.
      injection He as <-. exact Hc.
    + rewrite (on_del_explicit d Hr) in He. injection He as <-.
      rewrite refresh_items. apply Forall_delete. exact Hc.
  - injection He as <-.
    destruct entry as [v|]; [|exact Hc].
    destruct (on_add_fresh v d) as [(_ & ->)|(_ & ->)]; [|exact Hc].
    apply Forall_app. split; [exact Hc|].
    constructor; [|constructor]. simpl. tauto.
  - destruct names as [| | |data]; simpl in He; try discriminate;
      [injection He as <-; exact Hc|].
    destruct data as [| | | | |l]; try discriminate. simpl in He.
    injection He as <-.
    destruct (default JNull (dict_get (codes "fields") l)); try exact Hc.
    simpl. rewrite refresh_items, reorder_by_names_eq.
    apply Forall_app. split.
    + apply Forall_forall. intros h Hh.
      apply list_elem_of_In, in_map_iff in Hh. destruct Hh as (n & <- & _).
      simpl. destruct (suffix_map (items d) !! n) as [s|] eqn:E;
        [|simpl; tauto].
      apply suffix_map_In in E. destruct E as (it & Hit & _ & <-).
      rewrite Forall_forall in Hc. apply Hc, list_elem_of_In. exact Hit.
    + apply Forall_forall. intros it Hit.
      apply list_elem_of_filter in Hit. destruct Hit as [_ Hit].
      rewrite Forall_forall in Hc. exact (Hc it Hit).
Qed.

(** A session keeps what every event keeps. *)
Lemma run_events_inv es :
  forall d d', lb_ok d -> run_events es d = Ok d' ->
  lb_ok d'
  /\ (unique_names (items d) -> unique_names (items d'))
  /\ (clean (items d) -> clean (items d')).
Proof.
  induction es as [|e es IH]; intros d d' Hok Hr.
  - injection Hr as <-. auto.
  - simpl in Hr. destruct (handle e d) as [d1|x] eqn:He; [|discriminate].
    cbn [bind] in Hr.
    pose proof (handle_keeps_lb_ok e d d1 Hok He) as Hok1.
    destruct (IH d1 d' Hok1 Hr) as (Hok' & Hu & Hc).
    split; [exact Hok'|]. split.
    + intros H. apply Hu. exact (handle_unique e d d1 Hok H He).
    + intros H. apply Hc. exact (handle_clean e d d1 Hok H He).
Qed.

(** A session of events that return raises no exception. *)
Lemma run_events_returns es :
  forall d, lb_ok d -> Forall returns es ->
  exists d', run_events es d = Ok d'.
Proof.
  induction es as [|e es IH]; intros d Hok Hret.
  - eauto.
  - inversion Hret as [|? ? He Hes]; subst.
    destruct (handle_lb_ok e d Hok He) as (d1 & Hd1 & Hok1).
    destruct (IH d1 Hok1 Hes) as (d' & Hd').
    exists d'. simpl. rewrite Hd1. exact Hd'.
Qed.

End Sessions.

(** X12. A session of the dialog raises no exception as long as every
    import in it is cancelled or reads a file that holds a dict: whatever
    the list the dialog is opened with, every such event (selecting a
    line, moving up or down, deleting, adding, importing) returns, and
    the selection of the list box is none or a position of the list at
    the end.  (An import whose file cannot be opened or decoded, or holds
    no dict, raises.) *)
Theorem session_safe (its : list FieldItem) (es : list event) :
  Forall returns es ->
  exists d, run_events es (dialog_init its) = Ok d /\ lb_ok d.
Proof.
  intros Hret.
  destruct (run_events_returns es (dialog_init its) (lb_ok_init its) Hret)
    as (d & Hr).
  exists d. split; [exact Hr|].
  exact (proj1 (run_events_inv es _ _ (lb_ok_init its) Hr)).
Qed.

Lemma session_safe_witness :
  exists d,
    run_events
      [Click 1; EvUp; EvDel; EvAdd (Some (codes "NEW"));
       EvImport (ImportLoaded
                   (JObj [(codes "fields", JArr [JStr (codes "NEW"); JNum 3])]));
       EvImport ImportCancelled; EvDown]
      (dialog_init [mkFieldItem (codes "A") []; mkFieldItem (codes "B") []])
    = Ok d /\ lb_ok d.
Proof.
  apply (session_safe
           [mkFieldItem (codes "A") []; mkFieldItem (codes "B") []]
           [Click 1; EvUp; EvDel; EvAdd (Some (codes "NEW"));
            EvImport (ImportLoaded
                        (JObj [(codes "fields",
                                JArr [JStr (codes "NEW"); JNum 3])]));
            EvImport ImportCancelled; EvDown]).
  repeat constructor. simpl. eauto.
Defined.



(** X14. What the dialog shows is what is written: for every text that is
    read and every session of the dialog on the list read that ends
    without exception, the list at the end of the session is written to a
    text that is read back as that very list, names unchanged and in
    order, with every suffix stripped. *)
Theorem session_then_save (x : option (list N)) (its : list FieldItem)
    (es : list event) (d : OrderDialog) :
  parse_field_names_sexpr x = Ok its ->
  run_events es (dialog_init its) = Ok d ->
  parse_field_names_sexpr (Some (build_field_names_sexpr (items d)))
  = Ok (List.map normalize (items d)).
Proof.
  intros Hp Hr.
  destruct (parse_ok x) as (its' & Hp' & _ & Hc & _).
  rewrite Hp in Hp'. injection Hp' as <-.
  destruct (run_events_inv es _ _ (lb_ok_init its) Hr) as (_ & _ & Hc').
  apply parse_build. apply Hc'. exact Hc.
Qed.

Lemma session_then_save_witness :
  parse_field_names_sexpr
    (Some (build_field_names_sexpr
             [mkFieldItem (codes "URL") (codes "url");
              mkFieldItem (codes "MFR") (codes "visible ");
              mkFieldItem (codes "NEW") []]))
  = Ok [mkFieldItem (codes "URL") (codes "url");
        mkFieldItem (codes "MFR") (codes "visible");
        mkFieldItem (codes "NEW") []].
Proof.
  apply (session_then_save
           (Some (codes "(templatefields (field (name " ++ [QUOTE] ++ codes "MFR"
                  ++ [QUOTE] ++ codes ") visible ) (field (name " ++ [QUOTE]
                  ++ codes "URL" ++ [QUOTE] ++ codes ") url))"))
           [mkFieldItem (codes "MFR") (codes "visible ");
            mkFieldItem (codes "URL") (codes "url")]
           [Click 0; EvDown; EvAdd (Some (codes " NEW "));
            EvImport ImportCancelled]
           (mkDialog
              [mkFieldItem (codes "URL") (codes "url");
               mkFieldItem (codes "MFR") (codes "visible ");
               mkFieldItem (codes "NEW") []] 2));
    vm_compute; reflexivity.
Defined.

(** X15. Deleting the selected line removes exactly that record and keeps
    the others in order; afterwards the same position is selected, or the
    new last position when the last line was deleted, or nothing when the
    list has become empty. *)
Theorem on_del_spec (d : OrderDialog) :
  in_range (length (items d)) (lb_sel d) ->
  exists d',
    on_del d = Ok d'
    /\ items d' = delete (Z.to_nat (lb_sel d)) (items d)
    /\ length (items d') = (length (items d) - 1)%nat
    /\ lb_sel d' = Z.min (lb_sel d) (Z.of_nat (length (items d)) - 2).
Proof.
  intros Hi. rewrite (on_del_explicit d Hi). eexists. split; [reflexivity|].
  rewrite refresh_items.
  assert (Hlen : length (delete (Z.to_nat (lb_sel d)) (items d))
                 = (length (items d) - 1)%nat)
    by (apply length_delete, lookup_lt_is_Some_2; unfold in_range in Hi; lia).
  split; [reflexivity|]. split; [exact Hlen|].
  unfold in_range in Hi. unfold refresh. rewrite Hlen.
  destruct ((0 <=? Z.min (lb_sel d) (Z.of_nat (length (items d)) - 2))
            && (Z.min (lb_sel d) (Z.of_nat (length (items d)) - 2)
                <? Z.of_nat (length (items d) - 1)))%Z eqn:E; simpl.
  - reflexivity.
  - apply andb_false_iff in E. unfold NOT_FOUND.
    destruct E as [E|E]; [apply Z.leb_gt in E | apply Z.ltb_ge in E]; lia.
Qed.

Lemma on_del_spec_witness :
  exists d',
    on_del (mkDialog [mkFieldItem (codes "A") []; mkFieldItem (codes "B") []] 1)
    = Ok d'
    /\ items d' = [mkFieldItem (codes "A") []]
    /\ length (items d') = 1%nat
    /\ lb_sel d' = 0%Z.
Proof.
  apply (on_del_spec
           (mkDialog [mkFieldItem (codes "A") []; mkFieldItem (codes "B") []] 1)).
  unfold in_range. simpl. lia.
Defined.

(** X16. A move and the move back: when a line is moved up or down to a
    position of the list, moving it in the opposite direction gives back
    the dialog as it was, the list and the selection. *)
Theorem move_back (dir : direction) (d : OrderDialog) :
  in_range (length (items d)) (lb_sel d) ->
  in_range (length (items d)) (neighbour dir (lb_sel d)) ->
  exists d1,
    move dir d = Ok d1
    /\ move (match dir with Up => Down | Down => Up end) d1 = Ok d.
Proof.
  intros Hi Hj.
  destruct (lookup_lt_is_Some_2 (items d) (Z.to_nat (lb_sel d))) as [a Ha];
    [unfold in_range in Hi; lia|].
  destruct (lookup_lt_is_Some_2 (items d)
              (Z.to_nat (neighbour dir (lb_sel d)))) as [b Hb];
    [unfold in_range in Hj; lia|].
  assert (Hne : Z.to_nat (lb_sel d) <> Z.to_nat (neighbour dir (lb_sel d)))
    by (unfold in_range in *; destruct dir; simpl in *; lia).
  eexists. split; [exact (move_explicit dir d a b Hi Hj Ha Hb)|].
  set (i := Z.to_nat (lb_sel d)) in *.
  set (j := Z.to_nat (neighbour dir (lb_sel d))) in *.
  set (d1 := mkDialog _ _).
  assert (Hback : neighbour (match dir with Up => Down | Down => Up end)
                    (lb_sel d1) = lb_sel d)
    by (destruct dir; simpl; lia).
  assert (Hlen : length (items d1) = length (items d))
    by (simpl; rewrite !length_insert; reflexivity).
  rewrite (move_explicit _ d1 a b).
  - rewrite Hback. simpl. fold i j.
    rewrite list_insert_insert_eq.
    rewrite (list_insert_insert_ne _ i j) by exact Hne.
    rewrite list_insert_insert_eq.
    rewrite (list_insert_id _ i a Ha), (list_insert_id _ j b Hb).
    destruct d. reflexivity.
  - rewrite Hlen. exact Hj.
  - rewrite Hback, Hlen. exact Hi.
  - simpl. fold j. rewrite list_lookup_insert_ne by exact Hne.
    apply list_lookup_insert_eq. eapply lookup_lt_Some. exact Hb.
  - rewrite Hback. simpl. fold i.
    apply list_lookup_insert_eq. rewrite length_insert.
    eapply lookup_lt_Some. exact Ha.
Qed.

Lemma move_back_witness :
  let d := mkDialog [mkFieldItem (codes "A") []; mkFieldItem (codes "B") []] 1 in
  exists d1, move Up d = Ok d1 /\ move Down d1 = Ok d.
Proof.
  cbv zeta.
  apply (move_back Up
           (mkDialog [mkFieldItem (codes "A") []; mkFieldItem (codes "B") []] 1));
    unfold in_range; simpl; lia.
Defined.

(** X17. A move never loses and never duplicates a record: for every
    selection that the list box reports, the list after a move is a
    rearrangement of the list before. *)
Theorem move_permutation (dir : direction) (d d' : OrderDialog) :
  lb_ok d -> move dir d = Ok d' -> Permutation (items d') (items d).
Proof.
  intros Hok Hm.
  destruct (move_result dir d d' Hok Hm)
    as [->|(i & j & a & b & Hij & Ha & Hb & ->)]; [reflexivity|].
  apply swap_Permutation; assumption.
Qed.

Lemma move_permutation_witness :
  Permutation
    [mkFieldItem (codes "B") []; mkFieldItem (codes "A") []]
    [mkFieldItem (codes "A") []; mkFieldItem (codes "B") []].
Proof.
  apply (move_permutation Up
           (mkDialog [mkFieldItem (codes "A") []; mkFieldItem (codes "B") []] 1)
           (mkDialog [mkFieldItem (codes "B") []; mkFieldItem (codes "A") []] 0)).
  - right. simpl. lia.
  - reflexivity.
Defined.

(** ** Export and import *)

Section ExportImport.

Lemma texts_names (its : list FieldItem) :
  texts (List.map (fun it => JStr (name it)) its) = List.map name its.
Proof.
  unfold texts. induction its as [|it its IH]; [reflexivity|].
  simpl. f_equal. exact IH.
Qed.

Lemma filter_all_in {A} (P : A -> Prop) `{forall x, Decision (P x)}
    (l : list A) :
  (forall x, x ∈ l -> P x) -> filter P l = l.
Proof.
  induction l as [|a l IH]; intros HP; [reflexivity|].
  rewrite filter_cons_True by (apply HP; left).
  rewrite IH; [reflexivity|]. intros x Hx. apply HP. right. exact Hx.
Qed.

Lemma first_occurrences_id l : NoDup l -> first_occurrences l = l.
Proof.
  induction 1 as [|x l Hx _ IH]; [reflexivity|]. simpl. rewrite IH.
  f_equal. apply filter_all_in. intros y Hy ->. exact (Hx Hy).
Qed.

Lemma filter_none {A} (P : A -> Prop) `{forall x, Decision (P x)} (l : list A) :
  (forall x, x ∈ l -> ~ P x) -> filter P l = [].
Proof.
  induction l as [|a l IH]; intros HP; [reflexivity|].
  rewrite filter_cons_False by (apply HP; left).
  apply IH. intros x Hx. apply HP. right. exact Hx.
Qed.

(** With names all different, the dictionary gives every item its own
    suffix. *)
Lemma suffix_map_unique its it :
  unique_names its -> In it its ->
  suffix_map its !! name it = Some (suffix it).
Proof.
  unfold unique_names. intros Hu Hin.
  apply in_split in Hin. destruct Hin as (pre & post & ->).
  apply suffix_map_last.
  rewrite List.map_app in Hu. apply NoDup_app in Hu.
  destruct Hu as (_ & _ & Hu). simpl in Hu. apply NoDup_cons in Hu. tauto.
Qed.

Lemma imported_self its :
  unique_names its ->
  List.map (imported (suffix_map its)) (List.map name its) = its.
Proof.
  intros Hu. rewrite List.map_map.
  transitivity (List.map (fun it : FieldItem => it) its); [|apply List.map_id].
  apply List.map_ext_in.
  intros it Hit. unfold imported.
  rewrite (suffix_map_unique its it Hu Hit). destruct it. reflexivity.
Qed.

(** Importing a rearrangement of the current names. *)
Lemma reorder_permutation names its :
  unique_names its ->
  Permutation (texts names) (List.map name its) ->
  reorder_by_names names its
  = List.map (imported (suffix_map its)) (texts names).
Proof.
  intros Hu Hp. rewrite reorder_by_names_eq.
  rewrite first_occurrences_id by (rewrite Hp; exact Hu).
  rewrite filter_none; [apply app_nil_r|].
  intros it Hit Hno. apply Hno. rewrite Hp.
  apply list_elem_of_In, in_map. apply list_elem_of_In. exact Hit.
Qed.

(** The dictionary of a list that an import has built gives the records
    of the imported names their own suffixes. *)
Lemma suffix_map_reordered (m : gmap (list N) (list N)) F T n :
  NoDup F -> n ∈ F -> n ∉ List.map name T ->
  suffix_map (List.map (imported m) F ++ T) !! n
  = Some (default [] (m !! n)).
Proof.
  intros HF Hn HT.
  apply list_elem_of_In, in_split in Hn. destruct Hn as (F1 & F2 & ->).
  rewrite List.map_app, List.map_cons, <- app_assoc. simpl.
  change n with (name (imported m n)) at 1.
  rewrite suffix_map_last; [reflexivity|].
  simpl. rewrite List.map_app, List.map_map. simpl. rewrite List.map_id.
  apply NoDup_app in HF. destruct HF as (_ & _ & HF).
  apply NoDup_cons in HF. destruct HF as [HF _].
  rewrite elem_of_app. tauto.
Qed.

Lemma reorder_idem names its :
  reorder_by_names names (reorder_by_names names its)
  = reorder_by_names names its.
Proof.
  rewrite (reorder_by_names_eq names (reorder_by_names names its)).
  rewrite (reorder_by_names_eq names its).
  set (m := suffix_map its).
  set (F := first_occurrences (texts names)).
  set (T := filter (fun it => name it ∉ texts names) its).
  assert (HT : forall n, n ∈ F -> n ∉ List.map name T).
  { intros n Hn Hin. apply (proj1 (first_occurrences_elem _ _)) in Hn.
    apply list_elem_of_In, in_map_iff in Hin. destruct Hin as (it & <- & Hit).
    apply list_elem_of_In, list_elem_of_filter in Hit.
    destruct Hit as [Hno _]. exact (Hno Hn). }
  f_equal.
  - apply List.map_ext_in. intros n Hn. apply list_elem_of_In in Hn.
    unfold imported at 1.
    rewrite (suffix_map_reordered m F T n (first_occurrences_NoDup _) Hn
               (HT n Hn)).
    reflexivity.
  - rewrite filter_app. rewrite filter_none.
    + simpl. subst T. rewrite list_filter_filter.
      apply list_filter_iff. intros it. simpl. tauto.
    + intros h Hh Hno. apply Hno.
      apply list_elem_of_In, in_map_iff in Hh. destruct Hh as (n & <- & Hn).
      simpl. apply first_occurrences_elem, list_elem_of_In. exact Hn.
Qed.

End ExportImport.

(** X18. Adding the same name twice is adding it once: the second
    [on_add] with the same entry text leaves the dialog as the first one
    left it. *)
Theorem on_add_idempotent (v : list N) (d : OrderDialog) :
  on_add (Some v) (on_add (Some v) d) = on_add (Some v) d.
Proof.
  destruct (on_add_fresh v d) as [(Hf & Hi)|(_ & E)].
  - destruct (on_add_fresh v (on_add (Some v) d)) as [(Hf' & _)|(_ & E')];
      [|exact E'].
    exfalso. destruct Hf' as [_ Hf']. rewrite Hi in Hf'.
    apply Forall_app in Hf'. destruct Hf' as [_ Hf'].
    inversion Hf' as [|? ? Hn _]. apply Hn. reflexivity.
  - rewrite E. exact E.
Qed.

(** X19. Export and import back: when no name occurs twice and the
    export returns (the file could be written and every name could be
    encoded), importing what the file holds leaves the list of the dialog
    exactly as it is, names, suffixes and order. *)
Theorem export_import (writable : bool) (d : OrderDialog) (v : json) :
  unique_names (items d) ->
  on_export (Some writable) d = Done (Some v) ->
  exists d',
    on_import_dialog (ImportLoaded v) d = Ok d' /\ items d' = items d.
Proof.
  intros Hu He. unfold on_export, dump_file in He.
  destruct (negb writable); [discriminate|].
  destruct (json_encodable (export_value d)); [|discriminate].
  injection He as <-.
  unfold on_import_dialog, on_import_file, export_value.
  change (dict_get (codes "fields") [(codes "fields", ?v)]) with (Some v).
  eexists. split; [reflexivity|].
  cbn [default from_option id on_import]. rewrite refresh_items.
  rewrite reorder_permutation; [|exact Hu | rewrite texts_names; reflexivity].
  rewrite texts_names. apply imported_self. exact Hu.
Qed.

Lemma export_import_witness :
  exists d',
    on_import_dialog
      (ImportLoaded
         (export_value (mkDialog [mkFieldItem (codes "A") (codes "url");
                                  mkFieldItem (codes "B") []] 1)))
      (mkDialog [mkFieldItem (codes "A") (codes "url");
                 mkFieldItem (codes "B") []] 1) = Ok d'
    /\ items d' = [mkFieldItem (codes "A") (codes "url");
                   mkFieldItem (codes "B") []].
Proof.
  apply (export_import true
           (mkDialog [mkFieldItem (codes "A") (codes "url");
                      mkFieldItem (codes "B") []] 1)).
  - unfold unique_names. vm_compute.
    repeat (constructor; [rewrite ?elem_of_cons, elem_of_nil;
                          intuition discriminate|]).
    constructor.
  - vm_compute. reflexivity.
Defined.

(** X20. Importing the same list of names twice is importing it once. *)
Theorem on_import_idempotent (names : list json) (d : OrderDialog) :
  on_import (JArr names) (on_import (JArr names) d)
  = on_import (JArr names) d.
Proof.
  simpl. rewrite refresh_items, reorder_idem. reflexivity.
Qed.

(** X21. Importing a rearrangement of the current names (no name twice)
    rearranges the records: the names of the new list are the imported
    names in their order, and the new list holds exactly the records of
    the old one, each with its suffix. *)
Theorem on_import_permutation (names : list json) (d : OrderDialog) :
  unique_names (items d) ->
  Permutation (texts names) (List.map name (items d)) ->
  List.map name (items (on_import (JArr names) d)) = texts names
  /\ Permutation (items (on_import (JArr names) d)) (items d).
Proof.
  intros Hu Hp. simpl. rewrite refresh_items.
  rewrite (reorder_permutation names (items d) Hu Hp). split.
  - rewrite List.map_map. simpl. apply List.map_id.
  - rewrite (Permutation_map (imported (suffix_map (items d))) Hp).
    rewrite (imported_self (items d) Hu). reflexivity.
Qed.

Lemma on_import_permutation_witness :
  let d := mkDialog [mkFieldItem (codes "A") (codes "visible");
                     mkFieldItem (codes "B") []] 0 in
  let names := [JStr (codes "B"); JStr (codes "A")] in
  List.map name (items (on_import (JArr names) d)) = [codes "B"; codes "A"]
  /\ Permutation (items (on_import (JArr names) d)) (items d).
Proof.
  cbv zeta.
  apply (on_import_permutation [JStr (codes "B"); JStr (codes "A")]
           (mkDialog [mkFieldItem (codes "A") (codes "visible");
                      mkFieldItem (codes "B") []] 0)).
  - unfold unique_names. vm_compute.
    repeat (constructor; [rewrite ?elem_of_cons, elem_of_nil;
                          intuition discriminate|]).
    constructor.
  - vm_compute. apply perm_swap.
Defined.

(** X22. An import drops no name and invents none: the names of the new
    list are exactly the texts of the imported list together with the
    names of the old list. *)
Theorem on_import_names (names : list json) (d : OrderDialog) (n : list N) :
  n ∈ List.map name (items (on_import (JArr names) d))
  <-> n ∈ texts names \/ n ∈ List.map name (items d).
Proof.
  simpl. rewrite refresh_items, names_reorder, elem_of_app.
  rewrite first_occurrences_elem.
  split.
  - intros [H|H]; [left; exact H|]. right.
    apply list_elem_of_In, in_map_iff in H. destruct H as (it & <- & Hit).
    apply list_elem_of_In, list_elem_of_filter in Hit.
    apply list_elem_of_In, in_map, list_elem_of_In. tauto.
  - intros [H|H]; [left; exact H|].
    destruct (decide (n ∈ texts names)) as [Hin|Hout]; [left; exact Hin|].
    right. apply list_elem_of_In, in_map_iff in H.
    destruct H as (it & <- & Hit).
    apply list_elem_of_In, in_map, list_elem_of_In, list_elem_of_filter.
    split; [exact Hout | apply list_elem_of_In; exact Hit].
Qed.

(** X23. The edge cases of the import from a file: a file that holds no
    dict makes [on_import] raise [AttributeError]; a dict without the key
    fields, or with a value there that is no list, leaves the dialog
    unchanged. *)
Theorem on_import_file_edges (data : json) (d : OrderDialog) :
  ((forall l, data <> JObj l) ->
   on_import_file data d = Raise AttributeError)
  /\ (forall l, data = JObj l ->
      (forall ns, dict_get (codes "fields") l <> Some (JArr ns)) ->
      on_import_file data d = Ok d).
Proof.
  split.
  - intros H. destruct data; try reflexivity. exfalso. exact (H _ eq_refl).
  - intros l -> H. unfold on_import_file.
    destruct (dict_get (codes "fields") l) as [j|]; [|reflexivity].
    destruct j; try reflexivity. exfalso. exact (H _ eq_refl).
Qed.

(** ** The path of the configuration file *)

(** X24. [eeschema_json_path] returns only the path of a file that
    exists, whatever the environment and the platform. *)
Theorem eeschema_json_path_exists environ platform isfile path_join
    abspath expanduser (p : list N) :
  eeschema_json_path environ platform isfile path_join abspath expanduser
  = Some p ->
  isfile p = true.
Proof.
  assert (Hex : forall q, existing isfile q = Some p -> isfile p = true).
  { unfold existing. intros q Hq.
    destruct (isfile q) eqn:E; [|discriminate]. injection Hq as <-. exact E. }
  unfold eeschema_json_path. intros H.
  destruct (match environ (codes "KICAD_CONFIG_HOME") with
            | Some ((_ :: _) as kch) =>
                existing isfile
                  (path_join [abspath (expanduser kch); codes "eeschema.json"])
            | _ => None
            end) as [q|] eqn:E.
  - cbv beta iota zeta in H. injection H as ->.
    destruct (environ (codes "KICAD_CONFIG_HOME")) as [[|c kch]|];
      try discriminate.
    exact (Hex _ E).
  - cbv beta iota zeta in H.
    destruct (starts_with (codes "win") platform).
    + destruct (default [] (environ (codes "APPDATA"))); [discriminate|].
      exact (Hex _ H).
    + destruct (starts_with (codes "darwin") platform); exact (Hex _ H).
Qed.

Lemma eeschema_json_path_exists_witness :
  starts_with (codes "/home/u")
    (codes "/home/u/.config/kicad/9.0/eeschema.json") = true.
Proof.
  apply (eeschema_json_path_exists
           (fun _ => None) (codes "linux")
           (starts_with (codes "/home/u"))
           (fun _ => []) (fun p => p)
           (fun p => codes "/home/u/" ++ drop 2 p)
           (codes "/home/u/.config/kicad/9.0/eeschema.json")).
  vm_compute. reflexivity.
Defined.

(** X25. The variable KICAD_CONFIG_HOME comes first: when it is set to a
    text that is not empty and the eeschema.json of that directory
    exists, its path is the result, on every platform and whatever the
    other files. *)
Theorem eeschema_json_path_env environ platform isfile path_join
    abspath expanduser (kch : list N) :
  environ (codes "KICAD_CONFIG_HOME") = Some kch ->
  kch <> [] ->
  isfile (path_join [abspath (expanduser kch); codes "eeschema.json"]) = true ->
  eeschema_json_path environ platform isfile path_join abspath expanduser
  = Some (path_join [abspath (expanduser kch); codes "eeschema.json"]).
Proof.
  intros He Hk Hf. unfold eeschema_json_path, existing. rewrite He.
  destruct kch as [|c kch]; [congruence|]. rewrite Hf. reflexivity.
Qed.

Lemma eeschema_json_path_env_witness :
  eeschema_json_path (fun _ => Some (codes "/cfg")) (codes "win32")
    (fun _ => true) (fun l => concat l) (fun p => p) (fun p => p)
  = Some (codes "/cfgeeschema.json").
Proof.
  apply (eeschema_json_path_env (fun _ => Some (codes "/cfg")) (codes "win32")
           (fun _ => true) (fun l => concat l) (fun p => p) (fun p => p)
           (codes "/cfg")); [reflexivity | discriminate | reflexivity].
Defined.

(** ** The failure of the writing *)

Section WriteFailure.

Lemma escape_keeps c s : In c s -> In c (_escape s).
Proof.
  intros H. rewrite escape_flat_map. apply in_flat_map.
  exists c. split; [exact H|]. unfold escape_char.
  destruct (c =? BACKSLASH) eqn:Eb; [apply N.eqb_eq in Eb; subst; left; reflexivity|].
  destruct (c =? QUOTE) eqn:Eq; [apply N.eqb_eq in Eq; subst; right|];
    left; reflexivity.
Qed.

Lemma build_keeps c it its :
  In it its -> In c (name it) -> In c (build_field_names_sexpr its).
Proof.
  intros Hit Hc. unfold build_field_names_sexpr. rewrite join_nil.
  rewrite !in_app_iff. right. left.
  apply in_concat. exists (with_suffix_inside it).
  split; [apply in_map; exact Hit|].
  unfold with_suffix_inside. rewrite !in_app_iff.
  right. right. left. apply escape_keeps. exact Hc.
Qed.

Lemma encodable_false c s :
  In c s -> (55296 <= c <= 57343) -> encodable s = false.
Proof.
  intros Hin Hc. unfold encodable.
  destruct (forallb _ s) eqn:E; [|reflexivity].
  rewrite forallb_forall in E. specialize (E c Hin).
  apply negb_true_iff, andb_false_iff in E.
  destruct E as [E|E]; [apply N.leb_gt in E | apply N.leb_gt in E]; lia.
Qed.

Lemma forallb_dict_set_false (P : list N * json -> bool) k v l :
  P (k, v) = false -> forallb P (dict_set k v l) = false.
Proof.
  intros HP. induction l as [|[k' v'] l IH]; simpl.
  - rewrite HP. reflexivity.
  - destruct (bool_decide (k' = k)); simpl.
    + rewrite HP. reflexivity.
    + rewrite IH. apply andb_false_r.
Qed.

End WriteFailure.

(** X26. A name with a surrogate code point makes the writing fail: when
    the configuration and its drawing are dicts and the file can be
    opened, [save_drawing_field_names] raises [UnicodeEncodeError] for a
    list in which some name holds a code point from D800 to DFFF. *)
Theorem save_surrogate (dl fl : list (list N * json)) (its : list FieldItem)
    (it : FieldItem) (c : N) :
  In it its -> In c (name it) -> 55296 <= c <= 57343 ->
  save_drawing_field_names true (JObj dl) (JObj fl) its
  = Fails UnicodeEncodeError.
Proof.
  intros Hit Hc Hs. unfold save_drawing_field_names, dump_file.
  cbn [negb].
  replace (json_encodable _) with false; [reflexivity|]. symmetry.
  cbn [json_encodable]. apply forallb_dict_set_false.
  cbn [fst snd json_encodable]. apply andb_false_iff. right.
  apply forallb_dict_set_false.
  cbn [fst snd json_encodable]. apply andb_false_iff. right.
  apply (encodable_false c); [|exact Hs].
  exact (build_keeps c it its Hit Hc).
Qed.

Lemma save_surrogate_witness :
  save_drawing_field_names true (JObj []) (JObj [])
    [mkFieldItem [65; 55296] []]
  = Fails UnicodeEncodeError.
Proof.
  apply (save_surrogate [] [] [mkFieldItem [65; 55296] []]
           (mkFieldItem [65; 55296] []) 55296).
  - left. reflexivity.
  - right. left. reflexivity.
  - lia.
Defined.
